(** * The player store of the music player: queue, history and persistence

    A shallow embedding of [src/store/playerStore.ts] (the zustand store,
    its selection helpers and the module-level play history) and of
    [utils/storage] (the MMKV persistence adapter), followed by the
    properties of the specification that concern them. The code around
    the store comes after it: the whole interface of the store as
    actions, [clearStorage], [utils/formatDuration], the choice of a
    download link and the playback status handler of
    [services/audioService], and the repeat button of the player screen.

    Conventions of the embedding:
    - a JavaScript [number] that holds a time, a duration or a volume is a
      rational [Q]; the store only compares such numbers and takes
      [Math.max]/[Math.min] of them, which is exact. An array index is a
      [Z], because [findIndex] answers [-1];
    - [Math.random()] is a supply of draws in the world; a resampling
      loop consumes one draw per iteration and is [Starved] when the
      supply ends before the loop does;
    - reading a property of [undefined] is [Throw TypeError];
    - a JSON text kept in storage is represented by the value it encodes;
    - the module-level [playHistory], the store state, the MMKV instance
      and the draws together form the [World] that actions transform. *)

From Stdlib Require Import ZArith QArith Qround Lqa Bool List Lia Ascii.
From stdpp Require Import gmap strings list fin_maps pretty.

Close Scope Q_scope.
Open Scope Z_scope.

(** ** Numbers *)

Definition Math_max (a b : Q) : Q := if Qle_bool a b then b else a.
Definition Math_min (a b : Q) : Q := if Qle_bool a b then a else b.

(** [x || 0] on a number: zero is the only falsy rational. *)
Definition or_zero (x : Q) : Q := if Qeq_bool x 0 then 0%Q else x.

(** [Math.floor(Math.random() * n)] for the draw [r]. *)
Definition randomIndex (r : Q) (n : nat) : Z :=
  Qfloor (r * inject_Z (Z.of_nat n)).

(** ** Songs *)

Module Song.
(** The [Song] interface of [types/api]. Of its fields the store reads
    [id] and [duration] only; [name] stands for the metadata a song
    carries along (album, artists, images, media links). *)
Record t : Type := mk { id : string; name : string; duration : Q }.

(** [a.id === b.id] *)
Definition same_id (a b : t) : bool := String.eqb (id a) (id b).
End Song.

Abbreviation Song := Song.t.

Inductive RepeatMode : Type := off | one | all.

Definition RepeatMode_eqb (a b : RepeatMode) : bool :=
  match a, b with
  | off, off | one, one | all, all => true
  | _, _ => false
  end.

(** ** Arrays *)

Section Arrays.
Context {A : Type}.

(** [arr.findIndex(p)], [-1] when no element satisfies [p] *)
Fixpoint findIndex (p : A -> bool) (arr : list A) : Z :=
  match arr with
  | [] => -1
  | x :: rest =>
      if p x then 0
      else let i := findIndex p rest in
           if i =? -1 then -1 else i + 1
  end.

(** [arr[i]]; [None] is [undefined] *)
Definition at_index (arr : list A) (i : Z) : option A :=
  if i <? 0 then None else arr !! Z.to_nat i.

(** [arr.slice(-n)] *)
Definition slice_last (n : nat) (arr : list A) : list A :=
  drop (length arr - n)%nat arr.

(** [arr.slice(0, -1)] *)
Definition slice_but_last (arr : list A) : list A :=
  take (length arr - 1)%nat arr.

(** [arr.filter((_, i) => i !== index)] *)
Definition filter_out_index (index : Z) (arr : list A) : list A :=
  if index <? 0 then arr
  else take (Z.to_nat index) arr ++ drop (S (Z.to_nat index)) arr.

(** [arr.splice(i, 1)] on a copy: the array that remains *)
Definition splice_remove (i : Z) (arr : list A) : list A :=
  take (Z.to_nat i) arr ++ drop (S (Z.to_nat i)) arr.

(** [arr.splice(i, 0, x)] on a copy *)
Definition splice_insert (i : Z) (x : A) (arr : list A) : list A :=
  take (Z.to_nat i) arr ++ x :: drop (Z.to_nat i) arr.

Definition len (arr : list A) : Z := Z.of_nat (length arr).
End Arrays.

(** ** The store state *)

Record PlayerState : Type := mkPlayerState {
  currentSong : option Song;
  queue : list Song;
  originalQueue : list Song;
  shuffledQueue : list Song;
  isPlaying : bool;
  currentTime : Q;
  duration : Q;
  isLoading : bool;
  shuffle : bool;
  repeat : RepeatMode;
  volume : Q
}.

(** Zustand's [set({ f: v })] merges one field into the state. *)
Class Setter {R T : Type} (proj : R -> T) : Type := set_field : T -> R -> R.
Arguments set_field {R T} proj {Setter} _ _.

#[warning="-postfix-notation-not-level-1"]
Notation "s <| f := v |>" := (set_field f v s)
  (at level 12, left associativity, format "s  <| f  :=  v |>").

#[global] Instance set_currentSong : Setter currentSong := fun v s =>
  mkPlayerState v (queue s) (originalQueue s) (shuffledQueue s) (isPlaying s)
    (currentTime s) (duration s) (isLoading s) (shuffle s) (repeat s) (volume s).
#[global] Instance set_queue : Setter queue := fun v s =>
  mkPlayerState (currentSong s) v (originalQueue s) (shuffledQueue s) (isPlaying s)
    (currentTime s) (duration s) (isLoading s) (shuffle s) (repeat s) (volume s).
#[global] Instance set_originalQueue : Setter originalQueue := fun v s =>
  mkPlayerState (currentSong s) (queue s) v (shuffledQueue s) (isPlaying s)
    (currentTime s) (duration s) (isLoading s) (shuffle s) (repeat s) (volume s).
#[global] Instance set_shuffledQueue : Setter shuffledQueue := fun v s =>
  mkPlayerState (currentSong s) (queue s) (originalQueue s) v (isPlaying s)
    (currentTime s) (duration s) (isLoading s) (shuffle s) (repeat s) (volume s).
#[global] Instance set_isPlaying : Setter isPlaying := fun v s =>
  mkPlayerState (currentSong s) (queue s) (originalQueue s) (shuffledQueue s) v
    (currentTime s) (duration s) (isLoading s) (shuffle s) (repeat s) (volume s).
#[global] Instance set_currentTime : Setter currentTime := fun v s =>
  mkPlayerState (currentSong s) (queue s) (originalQueue s) (shuffledQueue s) (isPlaying s)
    v (duration s) (isLoading s) (shuffle s) (repeat s) (volume s).
#[global] Instance set_duration : Setter duration := fun v s =>
  mkPlayerState (currentSong s) (queue s) (originalQueue s) (shuffledQueue s) (isPlaying s)
    (currentTime s) v (isLoading s) (shuffle s) (repeat s) (volume s).
#[global] Instance set_isLoading : Setter isLoading := fun v s =>
  mkPlayerState (currentSong s) (queue s) (originalQueue s) (shuffledQueue s) (isPlaying s)
    (currentTime s) (duration s) v (shuffle s) (repeat s) (volume s).
#[global] Instance set_shuffle : Setter shuffle := fun v s =>
  mkPlayerState (currentSong s) (queue s) (originalQueue s) (shuffledQueue s) (isPlaying s)
    (currentTime s) (duration s) (isLoading s) v (repeat s) (volume s).
#[global] Instance set_repeat : Setter repeat := fun v s =>
  mkPlayerState (currentSong s) (queue s) (originalQueue s) (shuffledQueue s) (isPlaying s)
    (currentTime s) (duration s) (isLoading s) (shuffle s) v (volume s).
#[global] Instance set_volume : Setter volume := fun v s =>
  mkPlayerState (currentSong s) (queue s) (originalQueue s) (shuffledQueue s) (isPlaying s)
    (currentTime s) (duration s) (isLoading s) (shuffle s) (repeat s) v.

(** ** Queue selection *)

(** [getEffectiveQueue]: the shuffled queue under shuffle, the original
    queue without it, the visible queue when the chosen one is empty. *)
Definition getEffectiveQueue (state : PlayerState) : list Song :=
  if shuffle state && (0 <? len (shuffledQueue state)) then shuffledQueue state
  else if negb (shuffle state) && (0 <? len (originalQueue state)) then originalQueue state
  else queue state.

(** ** Effects: exceptions and the supply of random draws *)

Inductive error : Type := TypeError.

Inductive result (A : Type) : Type :=
| Ok (a : A)
| Throw (e : error)
| Starved.
Arguments Ok {A} a.
Arguments Throw {A} e.
Arguments Starved {A}.

#[global] Instance result_bind : MBind result := fun A B k m =>
  match m with
  | Ok a => k a
  | Throw e => Throw e
  | Starved => Starved
  end.

(** [Math.floor(Math.random() * n)], taking the next draw *)
Definition draw_index (n : nat) (draws : list Q) : result (Z * list Q) :=
  match draws with
  | [] => Starved
  | r :: rest => Ok (randomIndex r n, rest)
  end.

(** [while (index === avoid && n > 1) index = Math.floor(Math.random() * n)] *)
Fixpoint resample (avoid : Z) (n : nat) (index : Z) (draws : list Q)
  {struct draws} : result (Z * list Q) :=
  if (index =? avoid) && (1 <? Z.of_nat n) then
    match draws with
    | [] => Starved
    | r :: rest => resample avoid n (randomIndex r n) rest
    end
  else Ok (index, draws).

(** [getNextSongIndex]; the answer [None] is [null]. *)
Definition getNextSongIndex (currentIndex : Z) (queue : list Song)
    (shuffle : bool) (repeat : RepeatMode) (draws : list Q)
  : result (option Z * list Q) :=
  if len queue =? 0 then Ok (None, draws)
  else if RepeatMode_eqb repeat one then Ok (Some currentIndex, draws)
  else if RepeatMode_eqb repeat all && (currentIndex =? len queue - 1) then
    if shuffle then
      '(i, draws) ← draw_index (length queue) draws ; Ok (Some i, draws)
    else Ok (Some 0, draws)
  else if currentIndex <? len queue - 1 then
    if shuffle then
      '(i, draws) ← draw_index (length queue) draws;
      '(i, draws) ← resample currentIndex (length queue) i draws;
      Ok (Some i, draws)
    else Ok (Some (currentIndex + 1), draws)
  else if RepeatMode_eqb repeat all then
    if shuffle then
      '(i, draws) ← draw_index (length queue) draws;
      '(i, draws) ← resample currentIndex (length queue) i draws;
      Ok (Some i, draws)
    else Ok (Some 0, draws)
  else Ok (None, draws).

(** [getPreviousSongIndex] *)
Definition getPreviousSongIndex (currentIndex : Z) (queue : list Song)
    (shuffle : bool) (repeat : RepeatMode) (history : list Song)
    (draws : list Q) : result (option Z * list Q) :=
  if len queue =? 0 then Ok (None, draws)
  else if shuffle then
    let fromHistory :=
      match last history with
      | Some previousSong =>
          let previousIndex := findIndex (Song.same_id previousSong) queue in
          if previousIndex =? -1 then None else Some previousIndex
      | None => None
      end in
    match fromHistory with
    | Some previousIndex => Ok (Some previousIndex, draws)
    | None =>
        '(i, draws) ← draw_index (length queue) draws;
        '(i, draws) ← resample currentIndex (length queue) i draws;
        Ok (Some i, draws)
    end
  else if 0 <? currentIndex then Ok (Some (currentIndex - 1), draws)
  else if RepeatMode_eqb repeat all then Ok (Some (len queue - 1), draws)
  else Ok (None, draws).

(** ** The persistence adapter ([utils/storage])

    MMKV keeps booleans, numbers and strings under string keys. The
    strings this program writes are JSON texts and the names of the
    repeat modes; a JSON text is represented by the value it encodes, so
    that [JSON.parse] undoes [JSON.stringify]. The [journal] records the
    native calls that were issued, oldest first. *)

Inductive json : Type :=
| JSong (song : Song)
| JSongs (songs : list Song).

Inductive text : Type :=
| Plain (s : string)
| JSON_stringify (j : json).

Inductive mmkv_value : Type :=
| MBoolean (b : bool)
| MNumber (x : Q)
| MString (t : text).

Inductive mmkv_call : Type :=
| CallSet (key : string) (v : mmkv_value)
| CallDelete (key : string).

Record MMKV : Type := mkMMKV {
  slots : gmap string mmkv_value;
  journal : list mmkv_call
}.

Module KEYS.
Definition QUEUE : string := "player:queue".
Definition CURRENT_SONG : string := "player:currentSong".
Definition REPEAT : string := "player:repeat".
Definition SHUFFLE : string := "player:shuffle".
Definition VOLUME : string := "player:volume".
Definition SHUFFLED_QUEUE : string := "player:shuffledQueue".
Definition ORIGINAL_QUEUE : string := "player:originalQueue".
End KEYS.

Definition storage_set (key : string) (v : mmkv_value) (m : MMKV) : MMKV :=
  {| slots := <[key := v]> (slots m); journal := journal m ++ [CallSet key v] |}.

Definition storage_delete (key : string) (m : MMKV) : MMKV :=
  {| slots := delete key (slots m); journal := journal m ++ [CallDelete key] |}.

Definition getString (key : string) (m : MMKV) : option text :=
  match slots m !! key with Some (MString t) => Some t | _ => None end.

Definition getBoolean (key : string) (m : MMKV) : option bool :=
  match slots m !! key with Some (MBoolean b) => Some b | _ => None end.

Definition getNumber (key : string) (m : MMKV) : option Q :=
  match slots m !! key with Some (MNumber x) => Some x | _ => None end.

(** Truthiness of a string: only the empty one is falsy. *)
Definition truthy (t : text) : bool :=
  match t with
  | Plain s => negb (String.eqb s "")
  | JSON_stringify _ => true
  end.

(** [JSON.parse]; [None] is the [SyntaxError] on a string that is not a
    JSON text. *)
Definition JSON_parse (t : text) : option json :=
  match t with
  | Plain _ => None
  | JSON_stringify j => Some j
  end.

(** The name under which a repeat mode is stored. *)
Definition RepeatMode_name (r : RepeatMode) : string :=
  match r with off => "off" | one => "one" | all => "all" end.

(** The stored string read back at type ['off' | 'one' | 'all']. The cast
    in the source is unchecked; a string that names no mode compares
    unequal to ['one'] and ['all'] everywhere, which is how [off] behaves. *)
Definition RepeatMode_of_text (t : text) : RepeatMode :=
  match t with
  | Plain s => if String.eqb s "one" then one
               else if String.eqb s "all" then all else off
  | JSON_stringify _ => off
  end.

Definition save_songs (key : string) (songs : list Song) (m : MMKV) : MMKV :=
  storage_set key (MString (JSON_stringify (JSongs songs))) m.

(** The three loaders share one body: an absent or empty string, a
    string that does not parse (the caught exception) give []. Each key
    is only ever written with a list of songs. *)
Definition load_songs (key : string) (m : MMKV) : list Song :=
  match getString key m with
  | Some t =>
      if truthy t then
        match JSON_parse t with
        | Some (JSongs songs) => songs
        | _ => []
        end
      else []
  | None => []
  end.

Definition saveQueue := save_songs KEYS.QUEUE.
Definition loadQueue := load_songs KEYS.QUEUE.
Definition saveOriginalQueue := save_songs KEYS.ORIGINAL_QUEUE.
Definition loadOriginalQueue := load_songs KEYS.ORIGINAL_QUEUE.
Definition saveShuffledQueue := save_songs KEYS.SHUFFLED_QUEUE.
Definition loadShuffledQueue := load_songs KEYS.SHUFFLED_QUEUE.

(** [savePlayerState]. The store always passes arrays for
    [originalQueue] and [shuffledQueue], and an array is truthy even
    when empty, so both guarded saves run. *)
Definition savePlayerState (state : PlayerState) (m : MMKV) : MMKV :=
  let m := saveQueue (queue state) m in
  let m := match currentSong state with
           | Some song =>
               storage_set KEYS.CURRENT_SONG (MString (JSON_stringify (JSong song))) m
           | None => storage_delete KEYS.CURRENT_SONG m
           end in
  let m := storage_set KEYS.SHUFFLE (MBoolean (shuffle state)) m in
  let m := storage_set KEYS.REPEAT (MString (Plain (RepeatMode_name (repeat state)))) m in
  let m := storage_set KEYS.VOLUME (MNumber (volume state)) m in
  let m := saveOriginalQueue (originalQueue state) m in
  saveShuffledQueue (shuffledQueue state) m.

(** [Partial<PlayerState>] as [loadPlayerState] answers it: [None] is an
    absent ([undefined]) field, and for [currentSong] also [null]. *)
Module Persisted.
Record t : Type := mk {
  currentSong : option Song;
  queue : option (list Song);
  originalQueue : option (list Song);
  shuffledQueue : option (list Song);
  shuffle : option bool;
  repeat : option RepeatMode;
  volume : option Q
}.

(** the object [{}] of the [catch] branch *)
Definition empty : t := mk None None None None None None None.
End Persisted.

Definition loadPlayerState (m : MMKV) : Persisted.t :=
  let queue := loadQueue m in
  let originalQueue := loadOriginalQueue m in
  let shuffledQueue := loadShuffledQueue m in
  let parsedSong :=
    match getString KEYS.CURRENT_SONG m with
    | Some t =>
        if truthy t then
          match JSON_parse t with
          | Some (JSong song) => Some (Some song)
          | Some (JSongs _) => Some None
          | None => None
          end
        else Some None
    | None => Some None
    end in
  match parsedSong with
  | None => Persisted.empty
  | Some currentSong =>
      let shuffle := default false (getBoolean KEYS.SHUFFLE m) in
      let repeat := default off (RepeatMode_of_text <$> getString KEYS.REPEAT m) in
      let volume := default 1%Q (getNumber KEYS.VOLUME m) in
      Persisted.mk currentSong
        (Some (if shuffle && (0 <? len shuffledQueue) then shuffledQueue else queue))
        (Some (if 0 <? len originalQueue then originalQueue else queue))
        (if 0 <? len shuffledQueue then Some shuffledQueue else None)
        (Some shuffle) (Some repeat) (Some volume)
  end.

(** ** The world of the store *)

Record World : Type := mkWorld {
  state : PlayerState;
  playHistory : list Song;
  storage : MMKV;
  draws : list Q
}.

#[global] Instance set_state : Setter state := fun v w =>
  mkWorld v (playHistory w) (storage w) (draws w).
#[global] Instance set_playHistory : Setter playHistory := fun v w =>
  mkWorld (state w) v (storage w) (draws w).
#[global] Instance set_storage : Setter storage := fun v w =>
  mkWorld (state w) (playHistory w) v (draws w).
#[global] Instance set_draws : Setter draws := fun v w =>
  mkWorld (state w) (playHistory w) (storage w) v.

(** [set(partial)] with the merge [f] *)
Definition set (f : PlayerState -> PlayerState) (w : World) : World :=
  w <| state := f (state w) |>.

(** a call of the adapter on the MMKV instance *)
Definition store_call (f : MMKV -> MMKV) (w : World) : World :=
  w <| storage := f (storage w) |>.

(** [savePlayerState(get())] *)
Definition persist (w : World) : World :=
  store_call (savePlayerState (state w)) w.

(** [if (playHistory.length > 50) playHistory = playHistory.slice(-50)] *)
Definition trim_history (history : list Song) : list Song :=
  if 50 <? len history then slice_last 50 history else history.

(** ** The actions of the store *)

Definition initializeFromStorage (w : World) : World :=
  let loaded := loadPlayerState (storage w) in
  set (fun s =>
    s <| currentSong := Persisted.currentSong loaded |>
      <| queue := default [] (Persisted.queue loaded) |>
      <| originalQueue :=
           match Persisted.originalQueue loaded with
           | Some q => q
           | None => default [] (Persisted.queue loaded)
           end |>
      <| shuffledQueue := default [] (Persisted.shuffledQueue loaded) |>
      <| shuffle := default false (Persisted.shuffle loaded) |>
      <| repeat := default off (Persisted.repeat loaded) |>
      <| volume := default 1%Q (Persisted.volume loaded) |>) w.

Definition playSong (song : Song) (w : World) : World :=
  let s := state w in
  let effectiveQueue := getEffectiveQueue s in
  let songIndex := findIndex (fun x => Song.same_id x song) effectiveQueue in
  (* Add to history *)
  let history := trim_history (playHistory w) in
  let history :=
    match currentSong s with
    | Some current =>
        if negb (Song.same_id song current) then history ++ [current] else history
    | None => history
    end in
  let w := w <| playHistory := history |> in
  if songIndex =? -1 then
    (* the song is not in the queue: add it and play *)
    let newQueue := song :: effectiveQueue in
    let newOriginalQueue :=
      if shuffle s then originalQueue s else song :: originalQueue s in
    let w := set (fun s =>
      s <| currentSong := Some song |>
        <| queue := newQueue |>
        <| originalQueue := newOriginalQueue |>
        <| isPlaying := true |>
        <| currentTime := 0%Q |>
        <| duration := or_zero (Song.duration song) |>
        <| isLoading := true |>) w in
    let w := store_call (saveQueue newQueue) w in
    let w := store_call (saveOriginalQueue newOriginalQueue) w in
    persist w
  else
    let w := set (fun s =>
      s <| currentSong := Some song |>
        <| isPlaying := true |>
        <| currentTime := 0%Q |>
        <| duration := or_zero (Song.duration song) |>
        <| isLoading := true |>) w in
    persist w.

Definition pauseSong (w : World) : World :=
  persist (set (fun s => s <| isPlaying := false |>) w).

Definition resumeSong (w : World) : World :=
  match currentSong (state w) with
  | Some _ => persist (set (fun s => s <| isPlaying := true |>) w)
  | None => w
  end.

(** the [set] shared by [nextSong] and [previousSong] once the target is
    known *)
Definition switch_to (song : Song) (s : PlayerState) : PlayerState :=
  s <| currentSong := Some song |>
    <| isPlaying := true |>
    <| currentTime := 0%Q |>
    <| duration := or_zero (Song.duration song) |>
    <| isLoading := true |>.

Definition nextSong (w : World) : result World :=
  let s := state w in
  match currentSong s with
  | None => Ok w
  | Some current =>
      if len (queue s) =? 0 then Ok w
      else
        let effectiveQueue := getEffectiveQueue s in
        let currentIndex := findIndex (fun x => Song.same_id x current) effectiveQueue in
        if currentIndex =? -1 then Ok w
        else
          '(nextIndex, rest) ←
             getNextSongIndex currentIndex effectiveQueue (shuffle s) (repeat s) (draws w);
          let w := w <| draws := rest |> in
          match nextIndex with
          | Some i =>
              if i <? len effectiveQueue then
                match at_index effectiveQueue i with
                | None => Throw TypeError
                | Some next =>
                    (* Add to history *)
                    let w :=
                      if negb (Song.same_id current next)
                      then w <| playHistory := trim_history (playHistory w) ++ [current] |>
                      else w in
                    Ok (persist (set (switch_to next) w))
                end
              else Ok (persist (set (fun s => s <| isPlaying := false |>) w))
          | None => Ok (persist (set (fun s => s <| isPlaying := false |>) w))
          end
  end.

Definition previousSong (w : World) : result World :=
  let s := state w in
  match currentSong s with
  | None => Ok w
  | Some current =>
      if len (queue s) =? 0 then Ok w
      else
        let effectiveQueue := getEffectiveQueue s in
        let currentIndex := findIndex (fun x => Song.same_id x current) effectiveQueue in
        if currentIndex =? -1 then Ok w
        else
          '(previousIndex, rest) ←
             getPreviousSongIndex currentIndex effectiveQueue (shuffle s) (repeat s)
               (playHistory w) (draws w);
          let w := w <| draws := rest |> in
          match previousIndex with
          | Some i =>
              if (0 <=? i) && (i <? len effectiveQueue) then
                match at_index effectiveQueue i with
                | None => Throw TypeError
                | Some previous =>
                    (* Remove from history if going back *)
                    let w :=
                      if shuffle s && (0 <? len (playHistory w)) then
                        match last (playHistory w) with
                        | Some lastPlayed =>
                            if Song.same_id lastPlayed previous
                            then w <| playHistory := slice_but_last (playHistory w) |>
                            else w
                        | None => w
                        end
                      else w in
                    Ok (persist (set (switch_to previous) w))
                end
              else Ok w
          | None => Ok w
          end
  end.

Definition seekTo (time : Q) (w : World) : World :=
  let clampedTime := Math_max 0 (Math_min time (duration (state w))) in
  set (fun s => s <| currentTime := clampedTime |>) w.

Definition removeFromQueue (index : Z) (w : World) : result World :=
  let s := state w in
  if (index <? 0) || (len (queue s) <=? index) then Ok w
  else
    let effectiveQueue := getEffectiveQueue s in
    match at_index effectiveQueue index with
    | None => Throw TypeError  (* removedSong.id on undefined *)
    | Some removedSong =>
        let newEffectiveQueue := filter_out_index index effectiveQueue in
        let keep := fun x : Song => negb (Song.same_id x removedSong) in
        let newOriginalQueue := List.filter keep (originalQueue s) in
        let newShuffledQueue := List.filter keep (shuffledQueue s) in
        let isCurrent :=
          match currentSong s with
          | Some current => Song.same_id current removedSong
          | None => false
          end in
        w ←
          (if isCurrent then
             '(nextIndex, rest) ←
                getNextSongIndex index newEffectiveQueue (shuffle s) (repeat s) (draws w);
             let w := w <| draws := rest |> in
             let stop := fun s : PlayerState =>
               s <| currentSong := None |>
                 <| queue := newEffectiveQueue |>
                 <| originalQueue := newOriginalQueue |>
                 <| shuffledQueue := if shuffle s then newShuffledQueue else [] |>
                 <| isPlaying := false |>
                 <| currentTime := 0%Q |>
                 <| duration := 0%Q |> in
             match nextIndex with
             | Some i =>
                 if i <? len newEffectiveQueue then
                   match at_index newEffectiveQueue i with
                   | None => Throw TypeError
                   | Some next =>
                       Ok (set (fun s =>
                         s <| currentSong := Some next |>
                           <| queue := newEffectiveQueue |>
                           <| originalQueue := newOriginalQueue |>
                           <| shuffledQueue := if shuffle s then newShuffledQueue else [] |>
                           <| isPlaying := true |>
                           <| currentTime := 0%Q |>
                           <| duration := or_zero (Song.duration next) |>) w)
                   end
                 else Ok (set stop w)
             | None => Ok (set stop w)
             end
           else
             Ok (set (fun s =>
               s <| queue := newEffectiveQueue |>
                 <| originalQueue := newOriginalQueue |>
                 <| shuffledQueue := if shuffle s then newShuffledQueue else [] |>) w));
        let w := store_call (saveQueue newEffectiveQueue) w in
        let w := store_call (saveOriginalQueue newOriginalQueue) w in
        let w := if shuffle s then store_call (saveShuffledQueue newShuffledQueue) w else w in
        Ok (persist w)
    end.

Definition reorderQueue (from to : Z) (w : World) : result World :=
  let s := state w in
  if (from <? 0) || (len (queue s) <=? from) || (to <? 0) || (len (queue s) <=? to)
  then Ok w
  else
    let effectiveQueue := getEffectiveQueue s in
    let removed := at_index effectiveQueue from in
    match removed with
    | None => Throw TypeError  (* effectiveQueue[from].id on undefined *)
    | Some moved =>
        let newEffectiveQueue := splice_insert to moved (splice_remove from effectiveQueue) in
        (* Update original queue *)
        let originalFromIndex :=
          findIndex (fun x => Song.same_id x moved) (originalQueue s) in
        let originalToIndex :=
          findIndex (fun x =>
            match at_index effectiveQueue to with
            | Some target => Song.same_id x target
            | None => false
            end || Song.same_id x moved) (originalQueue s) in
        let newOriginalQueue :=
          if negb (originalFromIndex =? -1) && negb (originalToIndex =? -1) then
            match at_index (originalQueue s) originalFromIndex with
            | Some removedOriginal =>
                splice_insert originalToIndex removedOriginal
                  (splice_remove originalFromIndex (originalQueue s))
            | None => originalQueue s
            end
          else originalQueue s in
        let w := set (fun s =>
          s <| queue := if shuffle s then shuffledQueue s else newEffectiveQueue |>
            <| originalQueue := newOriginalQueue |>) w in
        let w := store_call (saveQueue newEffectiveQueue) w in
        let w := store_call (saveOriginalQueue newOriginalQueue) w in
        Ok (persist w)
    end.

Definition clearQueue (w : World) : World :=
  let w := set (fun s =>
    s <| queue := [] |>
      <| originalQueue := [] |>
      <| shuffledQueue := [] |>
      <| currentSong := None |>
      <| isPlaying := false |>
      <| currentTime := 0%Q |>
      <| duration := 0%Q |>) w in
  let w := store_call (saveQueue []) w in
  let w := store_call (saveOriginalQueue []) w in
  let w := store_call (saveShuffledQueue []) w in
  persist w.

Definition setRepeat (mode : RepeatMode) (w : World) : World :=
  persist (set (fun s => s <| repeat := mode |>) w).

Definition setCurrentTime (time : Q) (w : World) : World :=
  let clampedTime := Math_max 0 (Math_min time (duration (state w))) in
  set (fun s => s <| currentTime := clampedTime |>) w.

Definition setDuration (d : Q) (w : World) : World :=
  set (fun s => s <| duration := Math_max 0 d |>) w.

Definition setIsPlaying (playing : bool) (w : World) : World :=
  persist (set (fun s => s <| isPlaying := playing |>) w).

Definition setVolume (v : Q) (w : World) : World :=
  let clampedVolume := Math_max 0 (Math_min 1 v) in
  persist (set (fun s => s <| volume := clampedVolume |>) w).

Definition setCurrentSong (song : option Song) (w : World) : World :=
  persist (set (fun s => s <| currentSong := song |>) w).

Definition setIsLoading (loading : bool) (w : World) : World :=
  set (fun s => s <| isLoading := loading |>) w.

(** ** The actions that shuffle

    [utils/shuffle] is imported by the store but is not part of the
    sources at hand; [shuffleArray] is a parameter of the two actions
    that call it. It may consume draws. *)

Section Shuffling.
Variable shuffleArray : list Song -> list Q -> result (list Song * list Q).

Definition addToQueue (song : Song) (w : World) : result World :=
  let s := state w in
  let exists_ := existsb (fun x => Song.same_id x song) (queue s) in
  if exists_ then Ok w
  else
    let newQueue := queue s ++ [song] in
    let newOriginalQueue := originalQueue s ++ [song] in
    '(newShuffledQueue, rest) ←
       (if shuffle s then shuffleArray newOriginalQueue (draws w)
        else Ok ([], draws w));
    let w := w <| draws := rest |> in
    let w := set (fun s =>
      s <| queue := if shuffle s && (0 <? len newShuffledQueue)
                    then newShuffledQueue else newQueue |>
        <| originalQueue := newOriginalQueue |>
        <| shuffledQueue := newShuffledQueue |>) w in
    let w := store_call (saveQueue newQueue) w in
    let w := store_call (saveOriginalQueue newOriginalQueue) w in
    let w := if shuffle s && (0 <? len newShuffledQueue)
             then store_call (saveShuffledQueue newShuffledQueue) w else w in
    Ok (persist w).

Definition toggleShuffle (w : World) : result World :=
  let s := state w in
  let newShuffle := negb (shuffle s) in
  if newShuffle then
    '(shuffled, rest) ←
       shuffleArray (if 0 <? len (originalQueue s) then originalQueue s else queue s)
         (draws w);
    let w := w <| draws := rest |> in
    let w := set (fun s =>
      s <| shuffle := newShuffle |>
        <| shuffledQueue := shuffled |>
        <| queue := shuffled |>) w in
    let w := store_call (saveShuffledQueue shuffled) w in
    Ok (persist w)
  else
    let w := set (fun s =>
      s <| shuffle := newShuffle |>
        <| queue := if 0 <? len (originalQueue s) then originalQueue s else queue s |>) w in
    Ok (persist w).
End Shuffling.

(** ** Song transitions *)

Inductive transition : Type :=
| PlaySong (song : Song)
| NextSong
| PreviousSong.

Definition step (t : transition) (w : World) : result World :=
  match t with
  | PlaySong song => Ok (playSong song w)
  | NextSong => nextSong w
  | PreviousSong => previousSong w
  end.

Fixpoint run (ts : list transition) (w : World) : result World :=
  match ts with
  | [] => Ok w
  | t :: rest => w ← step t w; run rest w
  end.

(** ** What the specification says, in its own words *)

(** The effective queue of the specification: "[shuffledQueue] if
    shuffle is on and non-empty; else [originalQueue] if non-empty; else
    [queue]". *)
Definition effectiveQueue_spec (s : PlayerState) : list Song :=
  if shuffle s && negb (bool_decide (shuffledQueue s = [])) then shuffledQueue s
  else if negb (bool_decide (originalQueue s = [])) then originalQueue s
  else queue s.

(** The queue that is authoritative: "[shuffledQueue] when shuffle is
    on, [originalQueue] when shuffle is off". *)
Definition authoritativeQueue (s : PlayerState) : list Song :=
  if shuffle s then shuffledQueue s else originalQueue s.

(** "[queue] must always equal whichever of the above is authoritative
    (or the union they were built from, if both are empty)". *)
Definition queue_mirrors (s : PlayerState) : Prop :=
  queue s = authoritativeQueue s \/
  (originalQueue s = [] /\ shuffledQueue s = []).

(** An action "persists" when the storage it leaves is what
    [savePlayerState] writes for the state it leaves; it is "transient"
    when it leaves the storage, journal included, untouched. *)
Definition persists (action : World -> World) : Prop :=
  forall w : World,
    storage (action w) = savePlayerState (state (action w)) (storage w).

Definition transient (action : World -> World) : Prop :=
  forall w : World, storage (action w) = storage w.

(** Two states that differ at most in [currentTime]. *)
Definition same_but_currentTime (s s' : PlayerState) : Prop :=
  currentSong s' = currentSong s /\ queue s' = queue s /\
  originalQueue s' = originalQueue s /\ shuffledQueue s' = shuffledQueue s /\
  isPlaying s' = isPlaying s /\ duration s' = duration s /\
  isLoading s' = isLoading s /\ shuffle s' = shuffle s /\
  repeat s' = repeat s /\ volume s' = volume s.

(** ** Sample data *)

Definition song_A : Song := Song.mk "A" "Song A" 180%Q.
Definition song_B : Song := Song.mk "B" "Song B" 200%Q.
Definition song_C : Song := Song.mk "C" "Song C" 150%Q.

(** The state of a first launch: nothing stored, every default. *)
Definition default_state : PlayerState :=
  {| currentSong := None; queue := []; originalQueue := []; shuffledQueue := [];
     isPlaying := false; currentTime := 0%Q; duration := 0%Q; isLoading := false;
     shuffle := false; repeat := off; volume := 1%Q |}.

Definition empty_storage : MMKV := {| slots := ∅; journal := [] |}.

Definition world_of (s : PlayerState) : World :=
  {| state := s; playHistory := []; storage := empty_storage; draws := [] |}.

(** Shuffle is on, no shuffled order exists yet, the original queue is
    [A] and the visible queue is [B]. *)
Definition shuffle_on_unmaterialized : PlayerState :=
  default_state <| shuffle := true |> <| originalQueue := [song_A] |>
                <| queue := [song_B] |>.

(** [A] is queued and playing under shuffle; the three queues agree.
    This is the state after [addToQueue(A)], [toggleShuffle()] and
    [playSong(A)] on a first launch. *)
Definition shuffled_single : PlayerState :=
  default_state <| shuffle := true |> <| queue := [song_A] |>
                <| originalQueue := [song_A] |> <| shuffledQueue := [song_A] |>
                <| currentSong := Some song_A |> <| isPlaying := true |>
                <| duration := 180%Q |> <| isLoading := true |>.

(** [n] calls of [playSong] that alternate between [A] and [B]. *)
Fixpoint alternate (n : nat) (first second : Song) : list transition :=
  match n with
  | O => []
  | S k => PlaySong first :: alternate k second first
  end.

(** Queue [A; B; C] in order, [A] current, shuffle and repeat off. *)
Definition three_songs : PlayerState :=
  default_state <| queue := [song_A; song_B; song_C] |>
                <| originalQueue := [song_A; song_B; song_C] |>
                <| currentSong := Some song_A |> <| isPlaying := true |>
                <| duration := 180%Q |>.

(** A current song without any queue, paused. *)
Definition lone_song : PlayerState :=
  default_state <| currentSong := Some song_A |> <| duration := 180%Q |>.

(** A song of 200 seconds is loaded, nothing else is set. *)
Definition loaded_200 : PlayerState :=
  default_state <| currentSong := Some song_B |> <| duration := 200%Q |>.

(** Settings away from their defaults. *)
Definition customised : PlayerState :=
  three_songs <| shuffle := true |> <| shuffledQueue := [song_C; song_A; song_B] |>
              <| queue := [song_C; song_A; song_B] |>
              <| repeat := all |> <| volume := (1 # 2)%Q |>.

(** * The rest of the code *)

(** ** The whole interface of the store *)

(** A draw of [Math.random()] lies in [[0, 1)]. *)
Definition unit_draw (r : Q) : Prop := (0 <= r)%Q /\ (r < 1)%Q.

(** The actions [PlayerState] declares, as data. *)
Inductive action : Type :=
| APlaySong (song : Song)
| APauseSong
| AResumeSong
| ANextSong
| APreviousSong
| ASeekTo (time : Q)
| AAddToQueue (song : Song)
| ARemoveFromQueue (index : Z)
| AReorderQueue (from to : Z)
| AClearQueue
| AToggleShuffle
| ASetRepeat (mode : RepeatMode)
| ASetCurrentTime (time : Q)
| ASetDuration (d : Q)
| ASetIsPlaying (playing : bool)
| ASetVolume (v : Q)
| ASetCurrentSong (song : option Song)
| ASetIsLoading (loading : bool)
| AInitializeFromStorage.

Definition perform
    (shuffleArray : list Song -> list Q -> result (list Song * list Q))
    (a : action) (w : World) : result World :=
  match a with
  | APlaySong song => Ok (playSong song w)
  | APauseSong => Ok (pauseSong w)
  | AResumeSong => Ok (resumeSong w)
  | ANextSong => nextSong w
  | APreviousSong => previousSong w
  | ASeekTo time => Ok (seekTo time w)
  | AAddToQueue song => addToQueue shuffleArray song w
  | ARemoveFromQueue index => removeFromQueue index w
  | AReorderQueue from to => reorderQueue from to w
  | AClearQueue => Ok (clearQueue w)
  | AToggleShuffle => toggleShuffle shuffleArray w
  | ASetRepeat mode => Ok (setRepeat mode w)
  | ASetCurrentTime time => Ok (setCurrentTime time w)
  | ASetDuration d => Ok (setDuration d w)
  | ASetIsPlaying playing => Ok (setIsPlaying playing w)
  | ASetVolume v => Ok (setVolume v w)
  | ASetCurrentSong song => Ok (setCurrentSong song w)
  | ASetIsLoading loading => Ok (setIsLoading loading w)
  | AInitializeFromStorage => Ok (initializeFromStorage w)
  end.

(** Under shuffle, with a shuffled queue at hand, the visible queue is
    that queue. *)
Definition shuffle_mirrored (s : PlayerState) : Prop :=
  shuffle s = true -> shuffledQueue s <> [] -> queue s = shuffledQueue s.

(** The ids of a queue, in order. *)
Definition ids (q : list Song) : list string := Song.id <$> q.

(** A shuffle that keeps the order: the simplest [shuffleArray]. *)
Definition keep_order (q : list Song) (draws : list Q)
  : result (list Song * list Q) := Ok (q, draws).

(** A shuffle that reverses. *)
Definition reverse_order (q : list Song) (draws : list Q)
  : result (list Song * list Q) := Ok (rev q, draws).

(** ** The rest of the persistence adapter *)

Definition clearStorage (m : MMKV) : MMKV :=
  let m := storage_delete KEYS.QUEUE m in
  let m := storage_delete KEYS.CURRENT_SONG m in
  let m := storage_delete KEYS.REPEAT m in
  let m := storage_delete KEYS.SHUFFLE m in
  let m := storage_delete KEYS.VOLUME m in
  let m := storage_delete KEYS.SHUFFLED_QUEUE m in
  storage_delete KEYS.ORIGINAL_QUEUE m.

(** What [initializeFromStorage] sets when nothing is stored. *)
Definition reset_persisted (s : PlayerState) : PlayerState :=
  s <| currentSong := None |> <| queue := [] |> <| originalQueue := [] |>
    <| shuffledQueue := [] |> <| shuffle := false |> <| repeat := off |>
    <| volume := 1%Q |>.

(** ** [utils/formatDuration] *)






(** ** [AudioService.getDownloadUrl] *)

(** The media fields of a song ([types/api]): the optional list of
    download links tagged by quality, and the three fallback links.
    [None] is an absent ([undefined]) field. At run time the quality is
    whatever string the catalog sent. *)
Module Media.
Record DownloadUrl : Type := mkUrl { quality : string; link : string }.

Record t : Type := mk {
  downloadUrl : option (list DownloadUrl);
  encryptedMediaUrl : option string;
  mediaPreviewUrl : option string;
  url : string
}.
End Media.

(** Truthiness of a string that may be [undefined]. *)
Definition nonempty (s : string) : bool := negb (String.eqb s "").

(** [a || b], answering [b] when [a] is [undefined] or empty *)
Definition or_else (a : option string) (b : option string) : option string :=
  match a with
  | Some s => if nonempty s then Some s else b
  | None => b
  end.

(** [getDownloadUrl]; [None] is [null]. *)
Definition getDownloadUrl (song : Media.t) : option string :=
  match Media.downloadUrl song with
  | None | Some [] =>
      or_else (Media.encryptedMediaUrl song)
        (or_else (Media.mediaPreviewUrl song)
           (or_else (Some (Media.url song)) None))
  | Some urls =>
      match List.find (fun u => String.eqb (Media.quality u) "160kbps") urls with
      | Some preferredQuality => Some (Media.link preferredQuality)
      | None =>
          match List.find (fun u => nonempty (Media.link u)) urls with
          | Some fallbackQuality => Some (Media.link fallbackQuality)
          | None => or_else (Media.link <$> head urls) None
          end
      end
  end.

(** [if (!downloadUrl) throw ...] in [loadAndPlay]: what can be played *)
Definition playable (u : option string) : bool :=
  match u with
  | Some s => nonempty s
  | None => false
  end.

(** ** The repeat button of the player screen *)




(** ** [AudioService]: what a playback status does to the store *)

(** The fields of [AVPlaybackStatus] that the handler reads. *)
Module Status.
Record t : Type := mk {
  isLoaded : bool;
  error : option string;
  positionMillis : option Q;
  durationMillis : option Q;
  isPlaying : option bool;
  didJustFinish : bool;
  isLooping : bool
}.
End Status.

(** The draws that [nextSong] has consumed when it returns or throws. *)
Definition draws_after_nextSong (w : World) : list Q :=
  let s := state w in
  match currentSong s with
  | None => draws w
  | Some current =>
      if len (queue s) =? 0 then draws w
      else
        let effectiveQueue := getEffectiveQueue s in
        let currentIndex := findIndex (fun x => Song.same_id x current) effectiveQueue in
        if currentIndex =? -1 then draws w
        else
          match getNextSongIndex currentIndex effectiveQueue (shuffle s) (repeat s) (draws w) with
          | Ok (_, rest) => rest
          | _ => draws w
          end
  end.

(** [handlePlaybackCompletion], up to its first [await]. With repeat
    [one] the device is asked to seek and to play, and the store is
    written only after the device answers; otherwise [nextSong] runs at
    once, and an exception it throws is caught and stops playback. *)
Definition handlePlaybackCompletion (w : World) : result World :=
  match repeat (state w) with
  | one => Ok w
  | _ =>
      match nextSong w with
      | Ok w' => Ok w'
      | Throw _ => Ok (setIsPlaying false (w <| draws := draws_after_nextSong w |>))
      | Starved => Starved
      end
  end.

(** The three updates of a loaded status: position, duration and the
    playing flag, in this order. *)
Definition status_updates (status : Status.t) (w : World) : World :=
  let w := match Status.positionMillis status with
           | Some p => setCurrentTime (p / 1000)%Q w
           | None => w
           end in
  let w := match Status.durationMillis status with
           | Some d => if Qlt_le_dec 0 (d / 1000) then setDuration (d / 1000)%Q w else w
           | None => w
           end in
  match Status.isPlaying status with
  | Some playing => setIsPlaying playing w
  | None => w
  end.

(** [didJustFinish && !isLooping && isPlaying === false] *)
Definition finished (status : Status.t) : bool :=
  Status.didJustFinish status && negb (Status.isLooping status)
  && match Status.isPlaying status with Some false => true | _ => false end.

(** The handler the device calls with each status. *)
Definition onPlaybackStatusUpdate (status : Status.t) (w : World) : result World :=
  if negb (Status.isLoaded status) then
    match Status.error status with
    | Some e =>
        if nonempty e then Ok (setIsPlaying false (setIsLoading false w)) else Ok w
    | None => Ok w
    end
  else
    let w := status_updates status w in
    if finished status then handlePlaybackCompletion w else Ok w.

(** ** More sample data *)

(** [C], the last of three songs, is current under repeat [all]. *)
Definition at_last_song : World :=
  world_of (three_songs <| repeat := all |> <| currentSong := Some song_C |>).

(** The settings of [customised], with two draws at hand. *)
Definition with_draws : World :=
  world_of customised <| draws := [(1 # 2)%Q; (3 # 4)%Q] |>.

(** [A] is current under shuffle in a queue that also holds [B] and [C]. *)
Definition shuffled_three : World :=
  world_of (customised <| currentSong := Some song_A |>).

(** [C], the last of three songs, is current; shuffle and repeat are off. *)
Definition at_last_song_off : World :=
  world_of (three_songs <| currentSong := Some song_C |>).

(** The world after [playSong(B)] under shuffle with only [A] queued:
    the visible queue is [B; A], the effective queue [A]. *)
Definition after_stray_play : World :=
  playSong song_B (world_of shuffled_single).

(** Shuffle was switched on for an empty queue and two songs were played
    since: the visible queue holds them, no shuffled queue exists. *)
Definition empty_shuffle : World :=
  playSong song_B (playSong song_A (world_of (default_state <| shuffle := true |>))).



(** The device reports 90 of 100 seconds played, still playing. *)
Definition status_playing : Status.t :=
  Status.mk true None (Some 90000%Q) (Some 100000%Q) (Some true) false false.

(** The device reports that the song has just finished. *)
Definition status_finished : Status.t :=
  Status.mk true None (Some 150000%Q) (Some 150000%Q) (Some false) true false.

(** * Properties *)

(** ** Queue selection *)

Lemma len_pos_iff {A : Type} (l : list A) : (0 <? len l) = negb (bool_decide (l = [])).
Proof. destruct l; reflexivity. Qed.

Lemma getEffectiveQueue_unfold (s : PlayerState) :
  getEffectiveQueue s =
    if shuffle s
    then (if bool_decide (shuffledQueue s = []) then queue s else shuffledQueue s)
    else (if bool_decide (originalQueue s = []) then queue s else originalQueue s).
Proof.
  unfold getEffectiveQueue. rewrite !len_pos_iff.
  destruct (shuffle s); simpl.
  - destruct (bool_decide (shuffledQueue s = [])); reflexivity.
  - destruct (bool_decide (originalQueue s = [])); reflexivity.
Qed.

(** C2, as the code has it: under shuffle the shuffled queue when it is
    non-empty and otherwise the visible queue; without shuffle the
    original queue when it is non-empty and otherwise the visible queue.
    The original queue is never the fallback of an empty shuffled one. *)
Theorem getEffectiveQueue_cases (s : PlayerState) :
  (shuffle s = true -> shuffledQueue s <> [] ->
   getEffectiveQueue s = shuffledQueue s) /\
  (shuffle s = true -> shuffledQueue s = [] ->
   getEffectiveQueue s = queue s) /\
  (shuffle s = false -> originalQueue s <> [] ->
   getEffectiveQueue s = originalQueue s) /\
  (shuffle s = false -> originalQueue s = [] ->
   getEffectiveQueue s = queue s).
Proof.
  rewrite getEffectiveQueue_unfold.
  repeat match goal with |- _ /\ _ => split end;
    intros -> H; case_bool_decide; congruence.
Qed.

(** C2 fails as worded: with shuffle on, an empty shuffled queue and a
    non-empty original queue, the code answers the visible queue, where
    the specification's three-way fallback answers the original one. *)
Lemma getEffectiveQueue_not_spec :
  shuffle shuffle_on_unmaterialized = true /\
  shuffledQueue shuffle_on_unmaterialized = [] /\
  originalQueue shuffle_on_unmaterialized = [song_A] /\
  effectiveQueue_spec shuffle_on_unmaterialized = [song_A] /\
  getEffectiveQueue shuffle_on_unmaterialized = [song_B] /\
  getEffectiveQueue shuffle_on_unmaterialized
    <> effectiveQueue_spec shuffle_on_unmaterialized.
Proof. repeat split; try reflexivity. discriminate. Qed.

(** Where the two agree: whenever shuffle is off, or the shuffled queue
    is non-empty, or the original queue is empty. *)
Lemma getEffectiveQueue_spec_agree (s : PlayerState) :
  shuffle s = false \/ shuffledQueue s <> [] \/ originalQueue s = [] ->
  getEffectiveQueue s = effectiveQueue_spec s.
Proof.
  rewrite getEffectiveQueue_unfold. unfold effectiveQueue_spec.
  intros H. destruct (shuffle s); simpl.
  - case_bool_decide as Hs; simpl; [|reflexivity].
    case_bool_decide as Ho; simpl; [reflexivity|].
    destruct H as [H|[H|H]]; [discriminate|contradiction|contradiction].
  - case_bool_decide; reflexivity.
Qed.

(** ** Next index under shuffle *)

(** A draw in [[0, 1)] gives an index of the queue. *)
Lemma randomIndex_range (r : Q) (n : nat) :
  (0 <= r)%Q -> (r < 1)%Q -> (0 < n)%nat ->
  0 <= randomIndex r n < Z.of_nat n.
Proof.
  intros H0 H1 Hn. unfold randomIndex.
  assert (Hpos : (0 < inject_Z (Z.of_nat n))%Q)
    by (change 0%Q with (inject_Z 0); rewrite <- Zlt_Qlt; lia).
  split.
  - change 0 with (Qfloor 0). apply Qfloor_resp_le. nra.
  - rewrite Zlt_Qlt.
    apply Qle_lt_trans with (r * inject_Z (Z.of_nat n))%Q; [apply Qfloor_le|nra].
Qed.

Lemma resample_eq (avoid : Z) (n : nat) (index : Z) (draws : list Q) :
  resample avoid n index draws =
    if (index =? avoid) && (1 <? Z.of_nat n) then
      match draws with
      | [] => Starved
      | r :: rest => resample avoid n (randomIndex r n) rest
      end
    else Ok (index, draws).
Proof. destruct draws; reflexivity. Qed.

(** The resampling loop only ever exits on an index other than the one
    to avoid, when there is more than one candidate. *)
Lemma resample_differs (draws : list Q) :
  forall (avoid : Z) (n : nat) (index i : Z) (rest : list Q),
    1 < Z.of_nat n ->
    resample avoid n index draws = Ok (i, rest) -> i <> avoid.
Proof.
  induction draws as [|r draws IH]; intros avoid n index i rest Hn;
    rewrite resample_eq; destruct (index =? avoid) eqn:E; simpl.
  - destruct (Z.ltb_spec 1 (Z.of_nat n)); [discriminate|lia].
  - intros [= <- _]. lia.
  - destruct (Z.ltb_spec 1 (Z.of_nat n)); [|lia]. apply IH, Hn.
  - intros [= <- _]. lia.
Qed.

(** The loop ends as soon as a draw lands elsewhere: it is never starved
    by a supply that holds such a draw. *)
Lemma resample_returns (draws : list Q) :
  forall (avoid : Z) (n : nat) (index : Z),
    Exists (fun r => randomIndex r n <> avoid) draws ->
    exists i rest, resample avoid n index draws = Ok (i, rest).
Proof.
  induction draws as [|r draws IH]; intros avoid n index Hex.
  - inversion Hex.
  - rewrite resample_eq.
    destruct ((index =? avoid) && (1 <? Z.of_nat n)); [|eauto].
    inversion Hex as [? ? Hhd|? ? Htl]; subst.
    + rewrite resample_eq.
      destruct (Z.eqb_spec (randomIndex r n) avoid); [contradiction|].
      simpl. eauto.
    + apply IH, Htl.
Qed.

(** C4, amended: under shuffle, with more than one song, the next index is
    never the current one, for every supply of draws, unless the repeat
    mode is [one] or the current index is the last one under [all]. *)
Theorem getNextSongIndex_shuffle_differs
    (currentIndex : Z) (queue : list Song) (repeat : RepeatMode)
    (draws : list Q) (next : option Z) (rest : list Q) :
  1 < len queue ->
  repeat <> one ->
  ~ (repeat = all /\ currentIndex = len queue - 1) ->
  getNextSongIndex currentIndex queue true repeat draws = Ok (next, rest) ->
  next <> Some currentIndex.
Proof.
  intros Hlen Hone Hwrap. unfold getNextSongIndex, len in *.
  destruct (Z.eqb_spec (Z.of_nat (length queue)) 0) as [?|_]; [lia|].
  destruct repeat; [|contradiction|]; simpl.
  - (* off *)
    destruct (currentIndex <? Z.of_nat (length queue) - 1); [|intros [= <- _]; discriminate].
    destruct draws as [|r draws]; [discriminate|]. simpl.
    destruct (resample currentIndex (length queue) (randomIndex r (length queue)) draws)
      as [[i d]| |] eqn:E; simpl; try discriminate.
    intros [= <- _] [= ->]. eapply resample_differs in E; [contradiction|lia].
  - (* all *)
    destruct (Z.eqb_spec currentIndex (Z.of_nat (length queue) - 1)) as [Heq|_];
      [exfalso; apply Hwrap; split; [reflexivity|exact Heq]|].
    assert (Hsame : forall X : result (option Z * list Q),
      (if currentIndex <? Z.of_nat (length queue) - 1 then X else X) = X)
      by (intros; destruct (_ <? _); reflexivity).
    rewrite Hsame.
    destruct draws as [|r draws]; [discriminate|]. simpl.
    destruct (resample currentIndex (length queue) (randomIndex r (length queue)) draws)
      as [[i d]| |] eqn:E; simpl; try discriminate.
    intros [= <- _] [= ->]. eapply resample_differs in E; [contradiction|lia].
Qed.

Lemma getNextSongIndex_shuffle_differs_witness :
  Some 1 <> Some 0.
Proof.
  apply (getNextSongIndex_shuffle_differs 0 [song_A; song_B; song_C] off
           [(1 # 2)%Q] (Some 1) []);
    [reflexivity | discriminate | intros [H _]; discriminate H | reflexivity].
Defined.

(** C4 fails as worded, twice over: with repeat [one] the current index
    is the answer whatever the shuffle flag; and at the last index with
    repeat [all] the single draw is returned unguarded, so the draw 3/4
    on two songs lands on the current index 1. *)
Lemma getNextSongIndex_shuffle_may_repeat :
  getNextSongIndex 0 [song_A; song_B] true one [] = Ok (Some 0, []) /\
  getNextSongIndex 1 [song_A; song_B] true all [(3 # 4)%Q] = Ok (Some 1, []).
Proof. split; reflexivity. Qed.

(** Under the conditions of the amended claim an index is indeed
    returned once the supply holds a draw that lands elsewhere. *)
Lemma getNextSongIndex_shuffle_returns
    (currentIndex : Z) (queue : list Song) (repeat : RepeatMode) (draws : list Q) :
  1 < len queue ->
  repeat <> one ->
  0 <= currentIndex < len queue - 1 ->
  Exists (fun r => randomIndex r (length queue) <> currentIndex) draws ->
  exists i rest,
    getNextSongIndex currentIndex queue true repeat draws = Ok (Some i, rest)
    /\ i <> currentIndex.
Proof.
  intros Hlen Hone Hidx Hex. unfold getNextSongIndex, len in *.
  destruct (Z.eqb_spec (Z.of_nat (length queue)) 0) as [?|_]; [lia|].
  assert (Hgo : exists i rest,
    ('(i, d) ← draw_index (length queue) draws;
     '(i, d) ← resample currentIndex (length queue) i d; Ok (Some i, d))
      = Ok (Some i, rest) /\ i <> currentIndex).
  { destruct draws as [|r draws]; [inversion Hex|]. simpl.
    destruct (resample_returns (r :: draws) currentIndex (length queue)
                (randomIndex r (length queue)) Hex) as (i & rest & Hr).
    assert (Hr' : exists i rest,
      resample currentIndex (length queue) (randomIndex r (length queue)) draws
        = Ok (i, rest)).
    { rewrite resample_eq in Hr.
      destruct (Z.eqb_spec (randomIndex r (length queue)) currentIndex) as [Heq|Hne]; simpl in Hr.
      - destruct (1 <? Z.of_nat (length queue)) eqn:E1; [eauto|lia].
      - rewrite resample_eq.
        destruct (Z.eqb_spec (randomIndex r (length queue)) currentIndex); [contradiction|].
        simpl. eauto. }
    destruct Hr' as (j & rest' & Hj). rewrite Hj. simpl.
    exists j, rest'. split; [reflexivity|].
    eapply resample_differs; [|exact Hj]. lia. }
  destruct (Z.ltb_spec currentIndex (Z.of_nat (length queue) - 1)); [|lia].
  destruct (Z.eqb_spec currentIndex (Z.of_nat (length queue) - 1)); [lia|].
  destruct repeat; [|contradiction|]; simpl; exact Hgo.
Qed.

(** ** The play history *)

Lemma trim_history_length (history : list Song) :
  (length (trim_history history) <= 50)%nat.
Proof.
  unfold trim_history, slice_last, len.
  destruct (Z.ltb_spec 50 (Z.of_nat (length history))).
  - rewrite length_drop. lia.
  - lia.
Qed.

Lemma playSong_history_bound (song : Song) (w : World) :
  (length (playHistory (playSong song w)) <= 51)%nat.
Proof.
  pose proof (trim_history_length (playHistory w)) as Htrim.
  unfold playSong.
  destruct (findIndex _ _ =? -1); simpl;
    (destruct (currentSong (state w)) as [current|]; [|lia]);
    (destruct (negb (Song.same_id song current)); [|lia]);
    rewrite length_app; simpl; lia.
Qed.

Lemma nextSong_history_bound (w w' : World) :
  nextSong w = Ok w' ->
  (length (playHistory w) <= 51)%nat ->
  (length (playHistory w') <= 51)%nat.
Proof.
  pose proof (trim_history_length (playHistory w)) as Htrim.
  unfold nextSong, mbind, result_bind. intros H Hb.
  repeat case_match; simplify_eq; simpl; try assumption;
    rewrite length_app; simpl; lia.
Qed.

Lemma previousSong_history_bound (w w' : World) :
  previousSong w = Ok w' ->
  (length (playHistory w) <= 51)%nat ->
  (length (playHistory w') <= 51)%nat.
Proof.
  unfold previousSong, mbind, result_bind. intros H Hb.
  repeat case_match; simplify_eq; simpl; try assumption;
    unfold slice_but_last; rewrite length_take; lia.
Qed.

(** What the code does guarantee: 51 entries are never exceeded. *)
Lemma playHistory_bound_51 (ts : list transition) :
  forall w w' : World,
    (length (playHistory w) <= 51)%nat ->
    run ts w = Ok w' ->
    (length (playHistory w') <= 51)%nat.
Proof.
  induction ts as [|t ts IH]; intros w w' Hb; simpl.
  - intros [= <-]. exact Hb.
  - unfold mbind, result_bind.
    destruct (step t w) as [w1| |] eqn:Hstep; try discriminate.
    apply IH. destruct t; simpl in Hstep.
    + injection Hstep as <-. apply playSong_history_bound.
    + eapply nextSong_history_bound; eassumption.
    + eapply previousSong_history_bound; eassumption.
Qed.

(** C3 at the failing input: from an empty history, 52 calls of
    [playSong] that alternate between two songs leave 51 entries. The
    trim runs before the push, and only once 50 is already exceeded. *)
Theorem playHistory_reaches_51 :
  exists w : World,
    run (alternate 52 song_A song_B) (world_of default_state) = Ok w /\
    length (playHistory (world_of default_state)) = 0%nat /\
    length (playHistory w) = 51%nat.
Proof.
  eexists. split; [vm_compute; reflexivity|]. split; vm_compute; reflexivity.
Qed.

(** ** The visible queue and the authoritative one *)

(** C1 at the failing input. [A] is queued and current under shuffle,
    the three queues agree; [playSong(B)] prepends [B] to the visible
    queue only. Afterwards the visible queue is not the shuffled one,
    the current song is outside the effective queue, and [nextSong] and
    [previousSong] return without doing anything. *)
Theorem playSong_absent_under_shuffle :
  let w := world_of shuffled_single in
  let w' := playSong song_B w in
  queue_mirrors (state w) /\
  shuffle (state w') = true /\
  shuffledQueue (state w') = [song_A] /\
  originalQueue (state w') = [song_A] /\
  queue (state w') = [song_B; song_A] /\
  currentSong (state w') = Some song_B /\
  getEffectiveQueue (state w') = [song_A] /\
  ~ queue_mirrors (state w') /\
  nextSong w' = Ok w' /\
  previousSong w' = Ok w'.
Proof.
  intros w w'. subst w w'.
  repeat match goal with |- _ /\ _ => split end;
    try (vm_compute; reflexivity).
  - left. vm_compute. reflexivity.
  - intros [H|[H _]]; vm_compute in H; discriminate H.
Qed.

(** The same for every state: under shuffle with a non-empty shuffled
    queue, playing a song that is not in it leaves the shuffled queue as
    it was and makes the visible queue one element longer. *)
Lemma playSong_prepends_outside_shuffledQueue (song : Song) (w : World) :
  shuffle (state w) = true ->
  shuffledQueue (state w) <> [] ->
  findIndex (fun x => Song.same_id x song) (shuffledQueue (state w)) = -1 ->
  let s' := state (playSong song w) in
  shuffledQueue s' = shuffledQueue (state w) /\
  queue s' = song :: shuffledQueue (state w) /\
  ~ queue_mirrors s'.
Proof.
  intros Hsh Hne Habsent. unfold playSong.
  assert (Heff : getEffectiveQueue (state w) = shuffledQueue (state w)).
  { rewrite getEffectiveQueue_unfold, Hsh. case_bool_decide; [contradiction|reflexivity]. }
  rewrite Heff, Habsent. simpl. repeat split.
  intros [H|[_ H]]; [|contradiction].
  unfold authoritativeQueue in H. simpl in H. rewrite Hsh in H.
  apply (f_equal length) in H. simpl in H. lia.
Qed.

(** The failing state is one the store reaches by its own actions from
    a first launch, as soon as shuffling the one-song queue answers that
    queue. *)
Lemma shuffled_single_reachable
    (shuffleArray : list Song -> list Q -> result (list Song * list Q)) :
  shuffleArray [song_A] [] = Ok ([song_A], []) ->
  exists w1 w2 : World,
    addToQueue shuffleArray song_A (world_of default_state) = Ok w1 /\
    toggleShuffle shuffleArray w1 = Ok w2 /\
    state (playSong song_A w2) = shuffled_single.
Proof.
  intros Hshuffle.
  eexists. eexists. split; [reflexivity|]. split.
  - unfold toggleShuffle, mbind, result_bind. simpl. rewrite Hshuffle. reflexivity.
  - reflexivity.
Qed.

(** The sibling paths keep the two equal. Whatever [shuffleArray] does,
    switching shuffle on makes the visible queue the shuffled one, and
    adding a song under shuffle does so whenever the new shuffled queue
    is non-empty. *)
Lemma toggleShuffle_on_mirrors
    (shuffleArray : list Song -> list Q -> result (list Song * list Q))
    (w w' : World) :
  shuffle (state w) = false ->
  toggleShuffle shuffleArray w = Ok w' ->
  shuffle (state w') = true /\ queue (state w') = shuffledQueue (state w').
Proof.
  unfold toggleShuffle, mbind, result_bind. intros ->. simpl.
  destruct (shuffleArray _ _) as [[shuffled rest]| |]; try discriminate.
  intros [= <-]. split; reflexivity.
Qed.

Lemma addToQueue_shuffle_mirrors
    (shuffleArray : list Song -> list Q -> result (list Song * list Q))
    (song : Song) (w w' : World) :
  shuffle (state w) = true ->
  existsb (fun x => Song.same_id x song) (queue (state w)) = false ->
  addToQueue shuffleArray song w = Ok w' ->
  shuffledQueue (state w') <> [] ->
  queue (state w') = shuffledQueue (state w').
Proof.
  unfold addToQueue, mbind, result_bind. intros Hsh Hex. cbv zeta.
  rewrite Hex, Hsh.
  destruct (shuffleArray _ _) as [[shuffled rest]| |]; try discriminate.
  intros [= <-].
  destruct (0 <? len shuffled) eqn:E; simpl; rewrite ?Hsh; simpl; intros Hne.
  - reflexivity.
  - destruct shuffled; [contradiction|discriminate E].
Qed.


(** ** The scenario of three songs *)

(** One step forward without shuffle and without repeat, away from the
    end of the effective queue. *)
Lemma nextSong_advance (w : World) (current next : Song) (i : Z) :
  currentSong (state w) = Some current ->
  queue (state w) <> [] ->
  shuffle (state w) = false ->
  repeat (state w) = off ->
  findIndex (fun x => Song.same_id x current) (getEffectiveQueue (state w)) = i ->
  0 <= i < len (getEffectiveQueue (state w)) - 1 ->
  at_index (getEffectiveQueue (state w)) (i + 1) = Some next ->
  Song.same_id current next = false ->
  nextSong w =
    Ok (persist (set (switch_to next)
          (w <| draws := draws w |>
             <| playHistory := trim_history (playHistory w) ++ [current] |>))).
Proof.
  intros Hcur Hq Hsh Hrep Hfind Hi Hat Hdiff.
  unfold nextSong. cbv zeta. rewrite Hcur, Hfind, Hsh, Hrep.
  replace (len (queue (state w)) =? 0) with false
    by (destruct (queue (state w)); [contradiction|reflexivity]).
  replace (i =? -1) with false by lia.
  unfold getNextSongIndex.
  replace (len (getEffectiveQueue (state w)) =? 0) with false by lia.
  replace (i <? len (getEffectiveQueue (state w)) - 1) with true by lia.
  cbn [RepeatMode_eqb andb mbind result_bind].
  replace (i + 1 <? len (getEffectiveQueue (state w))) with true by lia.
  rewrite Hat, Hdiff. reflexivity.
Qed.

(** The step at the end of the effective queue: playback stops. *)
Lemma nextSong_at_end (w : World) (current : Song) :
  currentSong (state w) = Some current ->
  queue (state w) <> [] ->
  shuffle (state w) = false ->
  repeat (state w) = off ->
  findIndex (fun x => Song.same_id x current) (getEffectiveQueue (state w))
    = len (getEffectiveQueue (state w)) - 1 ->
  getEffectiveQueue (state w) <> [] ->
  nextSong w =
    Ok (persist (set (fun s => s <| isPlaying := false |>) (w <| draws := draws w |>))).
Proof.
  intros Hcur Hq Hsh Hrep Hfind Hne.
  assert (0 < len (getEffectiveQueue (state w)))
    by (destruct (getEffectiveQueue (state w)); [contradiction|reflexivity]).
  unfold nextSong. cbv zeta. rewrite Hcur, Hfind, Hsh, Hrep.
  replace (len (queue (state w)) =? 0) with false
    by (destruct (queue (state w)); [contradiction|reflexivity]).
  replace (len (getEffectiveQueue (state w)) - 1 =? -1) with false by lia.
  unfold getNextSongIndex.
  replace (len (getEffectiveQueue (state w)) =? 0) with false by lia.
  rewrite Z.ltb_irrefl. reflexivity.
Qed.

Lemma getEffectiveQueue_plain (s : PlayerState) (q : list Song) :
  shuffle s = false ->
  queue s = q ->
  originalQueue s = q \/ originalQueue s = [] ->
  getEffectiveQueue s = q.
Proof.
  intros Hsh Hq Ho. rewrite getEffectiveQueue_unfold, Hsh.
  case_bool_decide as He; [exact Hq|].
  destruct Ho as [Ho|Ho]; [exact Ho|contradiction].
Qed.

(** C5: queue [A(180s); B(200s); C(150s)], shuffle off, repeat off, [A]
    current. The first [nextSong] switches to [B] at time 0 with duration
    200, the second to [C]; the third finds no next index, stops
    playback and keeps [C]. The original queue is the same list, or is
    empty, and everything else in the world is arbitrary. *)
Theorem nextSong_three_songs (w : World) :
  queue (state w) = [song_A; song_B; song_C] ->
  originalQueue (state w) = [song_A; song_B; song_C] \/ originalQueue (state w) = [] ->
  shuffle (state w) = false ->
  repeat (state w) = off ->
  currentSong (state w) = Some song_A ->
  exists w1 w2 w3 : World,
    nextSong w = Ok w1 /\
    currentSong (state w1) = Some song_B /\
    currentTime (state w1) = 0%Q /\
    duration (state w1) = 200%Q /\
    nextSong w1 = Ok w2 /\
    currentSong (state w2) = Some song_C /\
    getNextSongIndex 2 (getEffectiveQueue (state w2)) false off (draws w2)
      = Ok (None, draws w2) /\
    nextSong w2 = Ok w3 /\
    isPlaying (state w3) = false /\
    currentSong (state w3) = Some song_C.
Proof.
  intros Hq Ho Hsh Hrep Hcur.
  pose (w1 := persist (set (switch_to song_B)
    (w <| draws := draws w |>
       <| playHistory := trim_history (playHistory w) ++ [song_A] |>))).
  pose (w2 := persist (set (switch_to song_C)
    (w1 <| draws := draws w1 |>
        <| playHistory := trim_history (playHistory w1) ++ [song_B] |>))).
  pose (w3 := persist (set (fun s => s <| isPlaying := false |>)
    (w2 <| draws := draws w2 |>))).
  assert (E0 : getEffectiveQueue (state w) = [song_A; song_B; song_C])
    by (apply getEffectiveQueue_plain; assumption).
  assert (E1 : getEffectiveQueue (state w1) = [song_A; song_B; song_C])
    by (apply getEffectiveQueue_plain; assumption).
  assert (E2 : getEffectiveQueue (state w2) = [song_A; song_B; song_C])
    by (apply getEffectiveQueue_plain; assumption).
  exists w1, w2, w3.
  repeat match goal with |- _ /\ _ => split end; try reflexivity.
  - apply (nextSong_advance w song_A song_B 0); try assumption; rewrite ?E0, ?Hq;
      try reflexivity; [discriminate | split; [discriminate | reflexivity]].
  - apply (nextSong_advance w1 song_B song_C 1); try assumption; rewrite ?E1;
      try reflexivity;
      [change (queue (state w1)) with (queue (state w)); rewrite Hq; discriminate
      | split; [discriminate | reflexivity]].
  - rewrite E2. reflexivity.
  - apply (nextSong_at_end w2 song_C); try assumption; rewrite ?E2;
      try reflexivity; try discriminate.
    change (queue (state w2)) with (queue (state w)). rewrite Hq. discriminate.
Qed.

Lemma nextSong_three_songs_witness :
  exists w1 w2 w3 : World,
    nextSong (world_of three_songs) = Ok w1 /\
    currentSong (state w1) = Some song_B /\
    currentTime (state w1) = 0%Q /\
    duration (state w1) = 200%Q /\
    nextSong w1 = Ok w2 /\
    currentSong (state w2) = Some song_C /\
    getNextSongIndex 2 (getEffectiveQueue (state w2)) false off (draws w2)
      = Ok (None, draws w2) /\
    nextSong w2 = Ok w3 /\
    isPlaying (state w3) = false /\
    currentSong (state w3) = Some song_C.
Proof.
  apply (nextSong_three_songs (world_of three_songs));
    [reflexivity | left; reflexivity | reflexivity | reflexivity | reflexivity].
Defined.

(** ** Persistence round trip *)

(** The slots after [savePlayerState], as one chain of updates. *)
Lemma slots_savePlayerState (s : PlayerState) (m : MMKV) :
  slots (savePlayerState s m) =
    <[KEYS.SHUFFLED_QUEUE := MString (JSON_stringify (JSongs (shuffledQueue s)))]>
    (<[KEYS.ORIGINAL_QUEUE := MString (JSON_stringify (JSongs (originalQueue s)))]>
    (<[KEYS.VOLUME := MNumber (volume s)]>
    (<[KEYS.REPEAT := MString (Plain (RepeatMode_name (repeat s)))]>
    (<[KEYS.SHUFFLE := MBoolean (shuffle s)]>
    (match currentSong s with
     | Some song =>
         <[KEYS.CURRENT_SONG := MString (JSON_stringify (JSong song))]>
           (<[KEYS.QUEUE := MString (JSON_stringify (JSongs (queue s)))]> (slots m))
     | None =>
         delete KEYS.CURRENT_SONG
           (<[KEYS.QUEUE := MString (JSON_stringify (JSongs (queue s)))]> (slots m))
     end))))).
Proof. unfold savePlayerState. destruct (currentSong s); reflexivity. Qed.

Lemma RepeatMode_of_name (r : RepeatMode) :
  RepeatMode_of_text (Plain (RepeatMode_name r)) = r.
Proof. destruct r; reflexivity. Qed.

(** What [loadPlayerState] reads back right after [savePlayerState],
    whatever the storage held before. *)
Lemma loadPlayerState_savePlayerState (s : PlayerState) (m : MMKV) :
  loadPlayerState (savePlayerState s m) =
    Persisted.mk (currentSong s)
      (Some (if shuffle s && (0 <? len (shuffledQueue s))
             then shuffledQueue s else queue s))
      (Some (if 0 <? len (originalQueue s) then originalQueue s else queue s))
      (if 0 <? len (shuffledQueue s) then Some (shuffledQueue s) else None)
      (Some (shuffle s)) (Some (repeat s)) (Some (volume s)).
Proof.
  unfold loadPlayerState, loadQueue, loadOriginalQueue, loadShuffledQueue,
    load_songs, getString, getBoolean, getNumber.
  rewrite slots_savePlayerState.
  destruct (currentSong s) as [song|]; simplify_map_eq; simpl;
    destruct (repeat s); reflexivity.
Qed.

(** The state after [savePlayerState(get())] and then
    [initializeFromStorage()]: everything persisted comes back as it
    was, except that the visible queue is rebuilt from the shuffled one
    under shuffle. *)
Lemma initializeFromStorage_persist (w : World) :
  let s := state w in
  let s' := state (initializeFromStorage (persist w)) in
  shuffle s' = shuffle s /\
  repeat s' = repeat s /\
  volume s' = volume s /\
  currentSong s' = currentSong s /\
  queue s' = (if shuffle s && (0 <? len (shuffledQueue s))
              then shuffledQueue s else queue s).
Proof.
  unfold initializeFromStorage, persist, store_call, set. simpl.
  rewrite loadPlayerState_savePlayerState. simpl. repeat split.
Qed.

(** C6, amended: saving the state and loading it back reproduces
    [queue], [shuffle], [repeat] and [volume] for every state whose
    visible queue is the shuffled queue whenever shuffle is on and the
    shuffled queue is non-empty, whatever the storage held before. *)
Theorem save_load_round_trip (w : World) :
  (shuffle (state w) = true -> shuffledQueue (state w) <> [] ->
   queue (state w) = shuffledQueue (state w)) ->
  let w' := initializeFromStorage (persist w) in
  queue (state w') = queue (state w) /\
  shuffle (state w') = shuffle (state w) /\
  repeat (state w') = repeat (state w) /\
  volume (state w') = volume (state w).
Proof.
  intros Hmirror w'. subst w'.
  destruct (initializeFromStorage_persist w) as (Hsh & Hrep & Hvol & _ & Hq).
  repeat match goal with |- _ /\ _ => split end; try assumption.
  rewrite Hq. destruct (shuffle (state w)) eqn:Es; simpl; [|reflexivity].
  rewrite len_pos_iff. case_bool_decide as He; simpl; [reflexivity|].
  symmetry. apply Hmirror; [reflexivity|exact He].
Qed.

Lemma save_load_round_trip_witness :
  let w' := initializeFromStorage (persist (world_of customised)) in
  queue (state w') = queue (state (world_of customised)) /\
  shuffle (state w') = shuffle (state (world_of customised)) /\
  repeat (state w') = repeat (state (world_of customised)) /\
  volume (state w') = volume (state (world_of customised)).
Proof.
  apply (save_load_round_trip (world_of customised)).
  intros _ _. reflexivity.
Defined.

(** C6 fails as worded, on a state the store itself produces and
    persists: after [playSong(B)] under shuffle the visible queue is
    [B; A], and loading what was just saved answers [A]. *)
Lemma save_load_loses_queue :
  let w := playSong song_B (world_of shuffled_single) in
  let w' := initializeFromStorage (persist w) in
  queue (state w) = [song_B; song_A] /\
  queue (state w') = [song_A] /\
  queue (state (initializeFromStorage w)) = [song_A] /\
  queue (state w') <> queue (state w).
Proof.
  intros w w'. subst w w'.
  repeat match goal with |- _ /\ _ => split end;
    try (vm_compute; reflexivity).
  intros H. vm_compute in H. discriminate H.
Qed.


(** ** Which setters persist *)

Lemma journal_savePlayerState (s : PlayerState) (m : MMKV) :
  length (journal (savePlayerState s m)) = (length (journal m) + 7)%nat.
Proof.
  unfold savePlayerState, saveQueue, saveOriginalQueue, saveShuffledQueue, save_songs.
  destruct (currentSong s); simpl; rewrite !length_app; simpl; lia.
Qed.

(** [savePlayerState] always issues native calls: no action both
    persists and is transient. *)
Lemma persists_not_transient (action : World -> World) :
  persists action -> ~ transient action.
Proof.
  intros Hp Ht.
  pose proof (Hp (world_of default_state)) as H1.
  rewrite (Ht (world_of default_state)) in H1.
  apply (f_equal (fun m => length (journal m))) in H1.
  rewrite journal_savePlayerState in H1. lia.
Qed.

Lemma persists_not_transient_contra (action : World -> World) :
  transient action -> ~ persists action.
Proof. intros Ht Hp. exact (persists_not_transient action Hp Ht). Qed.

(** C7, amended: [setRepeat], [setVolume], [setIsPlaying] and
    [setCurrentSong] write the state they leave to storage;
    [setCurrentTime], like [setDuration] and [setIsLoading], writes
    nothing. Each setter sets its field. *)
Theorem setters_persistence (mode : RepeatMode) (v time d : Q)
    (playing loading : bool) (song : option Song) :
  (persists (setRepeat mode) /\
   persists (setVolume v) /\
   persists (setIsPlaying playing) /\
   persists (setCurrentSong song)) /\
  (transient (setCurrentTime time) /\
   transient (setDuration d) /\
   transient (setIsLoading loading)) /\
  (forall w : World,
     repeat (state (setRepeat mode w)) = mode /\
     volume (state (setVolume v w)) = Math_max 0 (Math_min 1 v) /\
     isPlaying (state (setIsPlaying playing w)) = playing /\
     currentSong (state (setCurrentSong song w)) = song /\
     currentTime (state (setCurrentTime time w))
       = Math_max 0 (Math_min time (duration (state w))) /\
     duration (state (setDuration d w)) = Math_max 0 d /\
     isLoading (state (setIsLoading loading w)) = loading).
Proof.
  split; [|split].
  - repeat split.
  - repeat split.
  - intros w. repeat split.
Qed.

(** C7 fails as worded for [setCurrentTime]: on a fresh storage it
    issues no call and leaves every slot empty, where
    [savePlayerState] would have issued seven. *)
Lemma setCurrentTime_does_not_persist :
  let w := world_of loaded_200 in
  let w' := setCurrentTime 30%Q w in
  currentTime (state w') = 30%Q /\
  journal (storage w') = [] /\
  storage w' = storage w /\
  storage w' <> savePlayerState (state w') (storage w) /\
  ~ persists (setCurrentTime 30%Q).
Proof.
  intros w w'. subst w w'.
  repeat match goal with |- _ /\ _ => split end; try reflexivity.
  - intros H. apply (f_equal (fun m => length (journal m))) in H.
    rewrite journal_savePlayerState in H. vm_compute in H. discriminate H.
  - apply persists_not_transient_contra. intros w. reflexivity.
Qed.

(** ** Seeking *)

Lemma Math_max_min_clamp (time d : Q) :
  (0 <= d)%Q ->
  let c := Math_max 0 (Math_min time d) in
  (0 <= c)%Q /\ (c <= d)%Q /\
  ((0 <= time)%Q -> (time <= d)%Q -> c = time) /\
  ((time < 0)%Q -> c = 0%Q) /\
  ((d < time)%Q -> c = d).
Proof.
  intros Hd c. subst c. unfold Math_max, Math_min.
  destruct (Qle_bool time d) eqn:E1.
  - apply Qle_bool_iff in E1.
    destruct (Qle_bool 0 time) eqn:E2.
    + apply Qle_bool_iff in E2.
      repeat split; try assumption; try reflexivity; intros; lra.
    + assert (~ (0 <= time)%Q) by (rewrite <- Qle_bool_iff; congruence).
      repeat split; try assumption; try reflexivity; intros; lra.
  - assert (~ (time <= d)%Q) by (rewrite <- Qle_bool_iff; congruence).
    destruct (Qle_bool 0 d) eqn:E2.
    + repeat split; try assumption; try reflexivity; intros; lra.
    + assert (~ (0 <= d)%Q) by (rewrite <- Qle_bool_iff; congruence). contradiction.
Qed.

(** C8: [seekTo(t)] sets [currentTime] to [t] clamped into
    [[0, duration]] (it is [t] when [t] lies inside, [0] below and
    [duration] above), changes no other field of the state, and touches
    neither the storage nor its journal, the history or the draws. The
    duration is taken non-negative, as the data model has it. *)
Theorem seekTo_clamps (time : Q) (w : World) :
  (0 <= duration (state w))%Q ->
  let w' := seekTo time w in
  ((0 <= currentTime (state w'))%Q /\
   (currentTime (state w') <= duration (state w))%Q /\
   ((0 <= time)%Q -> (time <= duration (state w))%Q -> currentTime (state w') = time) /\
   ((time < 0)%Q -> currentTime (state w') = 0%Q) /\
   ((duration (state w) < time)%Q -> currentTime (state w') = duration (state w))) /\
  same_but_currentTime (state w) (state w') /\
  storage w' = storage w /\
  playHistory w' = playHistory w /\
  draws w' = draws w.
Proof.
  intros Hd w'. subst w'. split.
  - exact (Math_max_min_clamp time (duration (state w)) Hd).
  - repeat split.
Qed.

(** The scenario: [seekTo(250)] when [duration = 200]. *)
Lemma seekTo_clamps_witness :
  currentTime (state (seekTo 250%Q (world_of loaded_200))) = 200%Q /\
  journal (storage (seekTo 250%Q (world_of loaded_200))) = [].
Proof.
  assert (Hd : (0 <= duration (state (world_of loaded_200)))%Q) by discriminate.
  destruct (seekTo_clamps 250%Q (world_of loaded_200) Hd)
    as [(_ & _ & _ & _ & Habove) (_ & Hstorage & _)].
  split.
  - apply Habove. reflexivity.
  - rewrite Hstorage. reflexivity.
Defined.

(** ** Defensive no-ops *)

(** C9, amended: [removeFromQueue] with an index outside the visible
    queue, [reorderQueue] with either index outside it, [resumeSong]
    without a current song, and [nextSong] and [previousSong] without a
    current song or with an empty visible queue all return normally and
    leave the whole world (state, storage, history, draws) as it was. *)
Theorem defensive_noops (w : World) :
  (forall index : Z,
     index < 0 \/ len (queue (state w)) <= index ->
     removeFromQueue index w = Ok w) /\
  (forall from to : Z,
     (from < 0 \/ len (queue (state w)) <= from) \/
     (to < 0 \/ len (queue (state w)) <= to) ->
     reorderQueue from to w = Ok w) /\
  (currentSong (state w) = None -> resumeSong w = w) /\
  (currentSong (state w) = None \/ queue (state w) = [] -> nextSong w = Ok w) /\
  (currentSong (state w) = None \/ queue (state w) = [] -> previousSong w = Ok w).
Proof.
  repeat match goal with |- _ /\ _ => split end.
  - intros index H. unfold removeFromQueue.
    replace ((index <? 0) || (len (queue (state w)) <=? index)) with true by lia.
    reflexivity.
  - intros from to H. unfold reorderQueue.
    replace ((from <? 0) || (len (queue (state w)) <=? from) || (to <? 0)
             || (len (queue (state w)) <=? to)) with true by lia.
    reflexivity.
  - intros H. unfold resumeSong. rewrite H. reflexivity.
  - intros H. unfold nextSong. cbv zeta.
    destruct (currentSong (state w)); [|reflexivity].
    destruct H as [H|H]; [discriminate|]. rewrite H. reflexivity.
  - intros H. unfold previousSong. cbv zeta.
    destruct (currentSong (state w)); [|reflexivity].
    destruct H as [H|H]; [discriminate|]. rewrite H. reflexivity.
Qed.

Lemma defensive_noops_witness :
  removeFromQueue 3 (world_of three_songs) = Ok (world_of three_songs) /\
  removeFromQueue (-1) (world_of three_songs) = Ok (world_of three_songs) /\
  reorderQueue 0 3 (world_of three_songs) = Ok (world_of three_songs) /\
  reorderQueue (-1) 2 (world_of three_songs) = Ok (world_of three_songs) /\
  resumeSong (world_of default_state) = world_of default_state /\
  nextSong (world_of default_state) = Ok (world_of default_state) /\
  previousSong (world_of lone_song) = Ok (world_of lone_song).
Proof.
  destruct (defensive_noops (world_of three_songs)) as (Hrm & Hre & _).
  destruct (defensive_noops (world_of default_state)) as (_ & _ & Hres & Hnext & _).
  destruct (defensive_noops (world_of lone_song)) as (_ & _ & _ & _ & Hprev).
  repeat match goal with |- _ /\ _ => split end.
  - apply Hrm. right. discriminate.
  - apply Hrm. left. reflexivity.
  - apply Hre. right. right. discriminate.
  - apply Hre. left. left. reflexivity.
  - apply Hres. reflexivity.
  - apply Hnext. left. reflexivity.
  - apply Hprev. right. reflexivity.
Defined.

(** C9 fails as worded for [resumeSong]: it has no guard on the queue,
    so with a current song and an empty queue it starts playback and
    persists. *)
Lemma resumeSong_ignores_empty_queue :
  let w := world_of lone_song in
  queue (state w) = [] /\
  isPlaying (state w) = false /\
  isPlaying (state (resumeSong w)) = true /\
  length (journal (storage (resumeSong w))) = 7%nat /\
  resumeSong w <> w.
Proof.
  intros w. subst w.
  repeat match goal with |- _ /\ _ => split end; try (vm_compute; reflexivity).
  intros H. apply (f_equal (fun w => isPlaying (state w))) in H.
  vm_compute in H. discriminate H.
Qed.

(** ** Clearing the queue *)

(** C10: [clearQueue] empties the three queues, clears the current song,
    stops playback and zeroes time and duration; [shuffle], [repeat] and
    [volume] (and [isLoading]) stay as they were, so settings away from
    their defaults stay away from them. *)
Theorem clearQueue_keeps_settings (w : World) :
  let s := state w in
  let s' := state (clearQueue w) in
  (queue s' = [] /\ originalQueue s' = [] /\ shuffledQueue s' = [] /\
   currentSong s' = None /\ isPlaying s' = false /\
   currentTime s' = 0%Q /\ duration s' = 0%Q) /\
  (shuffle s' = shuffle s /\ repeat s' = repeat s /\ volume s' = volume s /\
   isLoading s' = isLoading s) /\
  (let c := state (clearQueue (world_of customised)) in
   shuffle c = true /\ repeat c = all /\ volume c = (1 # 2)%Q /\
   shuffle c <> shuffle default_state /\
   repeat c <> repeat default_state /\
   volume c <> volume default_state).
Proof.
  intros s s'. subst s s'.
  split; [repeat split|]. split; [repeat split|].
  cbv zeta.
  repeat match goal with |- _ /\ _ => split end;
    try reflexivity; discriminate.
Qed.

(** * Properties of the rest of the code *)

(** * More properties *)

(** ** Arrays *)

Lemma findIndex_bounds {A : Type} (p : A -> bool) (arr : list A) :
  findIndex p arr = -1 \/ 0 <= findIndex p arr < len arr.
Proof.
  unfold len. induction arr as [|x arr IH]; simpl; [left; reflexivity|].
  destruct (p x); [right; lia|].
  destruct (Z.eqb_spec (findIndex p arr) (-1)); [left; reflexivity|right; lia].
Qed.

Lemma findIndex_absent {A : Type} (p : A -> bool) (arr : list A) :
  findIndex p arr = -1 <-> Forall (fun x => p x = false) arr.
Proof.
  induction arr as [|x arr IH]; simpl.
  - split; [constructor|reflexivity].
  - destruct (p x) eqn:Hp.
    + split; [discriminate|]. intros H. inversion H; congruence.
    + destruct (Z.eqb_spec (findIndex p arr) (-1)) as [He|Hne].
      * split; [|reflexivity]. intros _. constructor; [exact Hp|]. apply IH, He.
      * pose proof (findIndex_bounds p arr) as Hb. split; [lia|].
        intros H. inversion H; subst. exfalso. apply Hne, IH. assumption.
Qed.

Lemma at_index_lookup {A : Type} (arr : list A) (i : Z) :
  0 <= i -> at_index arr i = arr !! Z.to_nat i.
Proof. intros H. unfold at_index. destruct (Z.ltb_spec i 0); [lia|reflexivity]. Qed.

Lemma at_index_in_range {A : Type} (arr : list A) (i : Z) :
  0 <= i < len arr -> exists x, at_index arr i = Some x.
Proof.
  intros H. rewrite at_index_lookup by lia.
  apply lookup_lt_is_Some. unfold len in H. lia.
Qed.

Lemma at_index_Some_range {A : Type} (arr : list A) (i : Z) (x : A) :
  at_index arr i = Some x -> 0 <= i < len arr.
Proof.
  unfold at_index, len. destruct (Z.ltb_spec i 0) as [Hlt|Hge]; [discriminate|].
  intros H. apply lookup_lt_Some in H. lia.
Qed.

(** [findIndex] answers the position of an element that satisfies the
    test, and no earlier element does. *)
Lemma findIndex_found {A : Type} (p : A -> bool) (arr : list A) :
  findIndex p arr <> -1 ->
  exists x, at_index arr (findIndex p arr) = Some x /\ p x = true /\
    Forall (fun y => p y = false) (take (Z.to_nat (findIndex p arr)) arr).
Proof.
  induction arr as [|x arr IH]; simpl; [congruence|].
  destruct (p x) eqn:Hp.
  - intros _. exists x. repeat split; [exact Hp|constructor].
  - destruct (Z.eqb_spec (findIndex p arr) (-1)) as [He|Hne]; [congruence|].
    intros _. destruct (IH Hne) as (y & Hy & Hpy & Hbefore).
    pose proof (findIndex_bounds p arr) as Hb.
    exists y. split; [|split; [exact Hpy|]].
    + rewrite at_index_lookup in * by lia.
      replace (Z.to_nat (findIndex p arr + 1)) with (S (Z.to_nat (findIndex p arr))) by lia.
      exact Hy.
    + replace (Z.to_nat (findIndex p arr + 1)) with (S (Z.to_nat (findIndex p arr))) by lia.
      simpl. constructor; assumption.
Qed.

(** ** Indices stay inside the queue *)

Lemma draw_index_range (n : nat) (draws rest : list Q) (i : Z) :
  Forall unit_draw draws -> (0 < n)%nat ->
  draw_index n draws = Ok (i, rest) ->
  0 <= i < Z.of_nat n /\ Forall unit_draw rest.
Proof.
  intros Hd Hn. destruct draws as [|r draws]; simpl; [discriminate|].
  intros [= <- <-]. inversion Hd as [|? ? [H0 H1] Hrest]; subst.
  split; [apply randomIndex_range; assumption|assumption].
Qed.

Lemma resample_range (draws : list Q) :
  forall (avoid : Z) (n : nat) (index i : Z) (rest : list Q),
    Forall unit_draw draws -> (0 < n)%nat -> 0 <= index < Z.of_nat n ->
    resample avoid n index draws = Ok (i, rest) ->
    0 <= i < Z.of_nat n /\ Forall unit_draw rest.
Proof.
  induction draws as [|r draws IH]; intros avoid n index i rest Hd Hn Hi;
    rewrite resample_eq; destruct ((index =? avoid) && (1 <? Z.of_nat n)).
  - discriminate.
  - intros [= <- <-]. split; assumption.
  - inversion Hd as [|? ? [H0 H1] Hrest]; subst.
    apply IH; [assumption|assumption|apply randomIndex_range; assumption].
  - intros [= <- <-]. split; assumption.
Qed.

Lemma draw_resample_range (avoid : Z) (n : nat) (draws rest : list Q) (i : option Z) :
  Forall unit_draw draws -> (0 < n)%nat ->
  ('(j, d) ← draw_index n draws;
   '(j, d) ← resample avoid n j d; Ok (Some j, d)) = Ok (i, rest) ->
  (exists j, i = Some j /\ 0 <= j < Z.of_nat n) /\ Forall unit_draw rest.
Proof.
  intros Hd Hn. unfold mbind, result_bind.
  destruct (draw_index n draws) as [[j d]| |] eqn:E1; try discriminate.
  destruct (draw_index_range n draws d j Hd Hn E1) as [Hj Hd'].
  destruct (resample avoid n j d) as [[k d']| |] eqn:E2; try discriminate.
  destruct (resample_range d avoid n j k d' Hd' Hn Hj E2) as [Hk Hd''].
  intros [= <- <-]. split; [exists k; split; [reflexivity|assumption]|assumption].
Qed.

Lemma getNextSongIndex_range
    (currentIndex : Z) (queue : list Song) (shuffle : bool) (repeat : RepeatMode)
    (draws rest : list Q) (i : Z) :
  0 <= currentIndex < len queue ->
  Forall unit_draw draws ->
  getNextSongIndex currentIndex queue shuffle repeat draws = Ok (Some i, rest) ->
  0 <= i < len queue /\ Forall unit_draw rest.
Proof.
  intros Hci Hd. unfold getNextSongIndex, len in *.
  assert (Hn : (0 < length queue)%nat) by lia.
  destruct (Z.eqb_spec (Z.of_nat (length queue)) 0); [lia|].
  destruct (RepeatMode_eqb repeat one); [intros [= <- <-]; split; assumption|].
  destruct (RepeatMode_eqb repeat all && (currentIndex =? Z.of_nat (length queue) - 1)).
  { destruct shuffle.
    - unfold mbind, result_bind.
      destruct (draw_index (length queue) draws) as [[j d]| |] eqn:E; try discriminate.
      intros [= <- <-]. eapply draw_index_range; eassumption.
    - intros [= <- <-]. split; [lia|assumption]. }
  destruct (Z.ltb_spec currentIndex (Z.of_nat (length queue) - 1)) as [Hlt|Hge].
  { destruct shuffle.
    - intros H. apply draw_resample_range in H as [(j & [= <-] & Hj) Hr]; auto.
    - intros [= <- <-]. split; [lia|assumption]. }
  destruct (RepeatMode_eqb repeat all); [|discriminate].
  destruct shuffle.
  - intros H. apply draw_resample_range in H as [(j & [= <-] & Hj) Hr]; auto.
  - intros [= <- <-]. split; [lia|assumption].
Qed.

(** X1: from an index inside a queue, and with draws in [[0, 1)], the
    next index is inside the queue too, and the draws left are draws
    still. *)
Theorem getNextSongIndex_in_range
    (currentIndex : Z) (queue : list Song) (shuffle : bool) (repeat : RepeatMode)
    (draws rest : list Q) (i : Z) :
  0 <= currentIndex < len queue ->
  Forall unit_draw draws ->
  getNextSongIndex currentIndex queue shuffle repeat draws = Ok (Some i, rest) ->
  0 <= i < len queue /\ Forall unit_draw rest.
Proof. apply getNextSongIndex_range. Qed.

Lemma getNextSongIndex_in_range_witness :
  0 <= 1 < len [song_A; song_B; song_C] /\ Forall unit_draw [].
Proof.
  apply (getNextSongIndex_in_range 0 [song_A; song_B; song_C] true off
           [(1 # 2)%Q] [] 1).
  - split; [discriminate|reflexivity].
  - constructor; [split; [discriminate|reflexivity]|constructor].
  - reflexivity.
Defined.

(** From an index inside a queue the previous index, too, stays inside
    it, whatever the history holds. *)
Theorem getPreviousSongIndex_in_range
    (currentIndex : Z) (queue : list Song) (shuffle : bool) (repeat : RepeatMode)
    (history : list Song) (draws rest : list Q) (i : Z) :
  0 <= currentIndex < len queue ->
  Forall unit_draw draws ->
  getPreviousSongIndex currentIndex queue shuffle repeat history draws
    = Ok (Some i, rest) ->
  0 <= i < len queue /\ Forall unit_draw rest.
Proof.
  intros Hci Hd. unfold getPreviousSongIndex.
  assert (Hn : (0 < length queue)%nat) by (unfold len in Hci; lia).
  destruct (Z.eqb_spec (len queue) 0); [lia|].
  destruct shuffle.
  - assert (Hrandom : forall r,
      ('(j, d) ← draw_index (length queue) draws;
       '(j, d) ← resample currentIndex (length queue) j d; Ok (Some j, d))
        = Ok (Some i, r) -> 0 <= i < len queue /\ Forall unit_draw r).
    { intros r H. apply draw_resample_range in H as [(j & [= <-] & Hj) Hr]; auto. }
    destruct (last history) as [previousSong|]; [|apply Hrandom].
    pose proof (findIndex_bounds (Song.same_id previousSong) queue) as Hb.
    destruct (Z.eqb_spec (findIndex (Song.same_id previousSong) queue) (-1));
      [apply Hrandom|].
    intros [= <- <-]. split; [lia|assumption].
  - destruct (Z.ltb_spec 0 currentIndex); [intros [= <- <-]; split; [lia|assumption]|].
    destruct (RepeatMode_eqb repeat all); [|discriminate].
    intros [= <- <-]. split; [lia|assumption].
Qed.

Lemma getPreviousSongIndex_in_range_witness :
  0 <= 2 < len [song_A; song_B; song_C] /\ Forall unit_draw [].
Proof.
  apply (getPreviousSongIndex_in_range 0 [song_A; song_B; song_C] false all
           [] [] [] 2).
  - split; [discriminate|reflexivity].
  - constructor.
  - reflexivity.
Defined.

(** ** Navigation never throws *)

Lemma resample_no_throw (draws : list Q) :
  forall (avoid : Z) (n : nat) (index : Z) (e : error),
    resample avoid n index draws <> Throw e.
Proof.
  induction draws as [|r draws IH]; intros avoid n index e;
    rewrite resample_eq; destruct ((index =? avoid) && (1 <? Z.of_nat n));
    try discriminate. apply IH.
Qed.

Lemma draw_resample_no_throw (avoid : Z) (n : nat) (draws : list Q) (e : error) :
  ('(j, d) ← draw_index n draws;
   '(j, d) ← resample avoid n j d; Ok (Some j, d)) <> Throw e.
Proof.
  unfold mbind, result_bind. destruct draws as [|r draws]; simpl; [discriminate|].
  destruct (resample avoid n (randomIndex r n) draws) as [[j d]| |] eqn:E;
    try discriminate.
  intros [= <-]. exact (resample_no_throw _ _ _ _ _ E).
Qed.

Lemma getNextSongIndex_no_throw
    (currentIndex : Z) (queue : list Song) (shuffle : bool) (repeat : RepeatMode)
    (draws : list Q) (e : error) :
  getNextSongIndex currentIndex queue shuffle repeat draws <> Throw e.
Proof.
  unfold getNextSongIndex.
  repeat match goal with
  | |- (if ?b then _ else _) <> _ => destruct b
  end; try discriminate; try apply draw_resample_no_throw.
  unfold mbind, result_bind. destruct draws; discriminate.
Qed.

Lemma getPreviousSongIndex_no_throw
    (currentIndex : Z) (queue : list Song) (shuffle : bool) (repeat : RepeatMode)
    (history : list Song) (draws : list Q) (e : error) :
  getPreviousSongIndex currentIndex queue shuffle repeat history draws <> Throw e.
Proof.
  unfold getPreviousSongIndex.
  destruct (len queue =? 0); [discriminate|].
  destruct shuffle.
  - destruct (last history) as [p|]; [|apply draw_resample_no_throw].
    destruct (findIndex (Song.same_id p) queue =? -1);
      [apply draw_resample_no_throw|discriminate].
  - destruct (0 <? currentIndex); [discriminate|].
    destruct (RepeatMode_eqb repeat all); discriminate.
Qed.

(** X2: with draws in [[0, 1)], [nextSong] never throws: the index it is
    given always names a song of the effective queue. *)
Theorem nextSong_never_throws (w : World) (e : error) :
  Forall unit_draw (draws w) -> nextSong w <> Throw e.
Proof.
  intros Hd. unfold nextSong. cbv zeta.
  destruct (currentSong (state w)) as [current|]; [|discriminate].
  destruct (len (queue (state w)) =? 0); [discriminate|].
  set (eff := getEffectiveQueue (state w)).
  set (ci := findIndex (fun x => Song.same_id x current) eff).
  pose proof (findIndex_bounds (fun x => Song.same_id x current) eff) as Hb.
  fold ci in Hb.
  destruct (Z.eqb_spec ci (-1)) as [|Hne]; [discriminate|].
  unfold mbind, result_bind.
  destruct (getNextSongIndex ci eff (shuffle (state w)) (repeat (state w)) (draws w))
    as [[[i|] rest]| |] eqn:E; try discriminate.
  - destruct (getNextSongIndex_range ci eff _ _ _ _ _ ltac:(lia) Hd E) as [Hi _].
    destruct (Z.ltb_spec i (len eff)) as [_|Hge]; [|lia].
    destruct (at_index_in_range eff i Hi) as [next ->]. discriminate.
  - intros [= <-]. exact (getNextSongIndex_no_throw _ _ _ _ _ _ E).
Qed.

Lemma nextSong_never_throws_witness :
  nextSong with_draws <> Throw TypeError.
Proof.
  apply (nextSong_never_throws with_draws TypeError).
  repeat constructor; discriminate.
Defined.

(** X3: [previousSong] never throws, whatever the draws: it checks the
    index on both sides before it reads the queue. *)
Theorem previousSong_never_throws (w : World) (e : error) :
  previousSong w <> Throw e.
Proof.
  unfold previousSong. cbv zeta.
  destruct (currentSong (state w)) as [current|]; [|discriminate].
  destruct (len (queue (state w)) =? 0); [discriminate|].
  set (eff := getEffectiveQueue (state w)).
  set (ci := findIndex (fun x => Song.same_id x current) eff).
  destruct (ci =? -1); [discriminate|].
  unfold mbind, result_bind.
  destruct (getPreviousSongIndex ci eff (shuffle (state w)) (repeat (state w))
              (playHistory w) (draws w)) as [[[i|] rest]| |] eqn:E; try discriminate.
  - destruct (Z.leb_spec 0 i) as [H0|]; simpl; [|discriminate].
    destruct (Z.ltb_spec i (len eff)) as [H1|]; [|discriminate].
    destruct (at_index_in_range eff i (conj H0 H1)) as [previous ->]. discriminate.
  - intros [= <-]. exact (getPreviousSongIndex_no_throw _ _ _ _ _ _ _ E).
Qed.

(** ** Moving through the queue *)

Lemma World_eta (w : World) : w <| draws := draws w |> = w.
Proof. destruct w; reflexivity. Qed.

Lemma same_id_refl (song : Song) : Song.same_id song song = true.
Proof. apply String.eqb_refl. Qed.

Lemma same_id_sym (a b : Song) : Song.same_id a b = Song.same_id b a.
Proof. apply String.eqb_sym. Qed.

(** X4: without shuffle and with repeat [all], [nextSong] on the last
    song of the effective queue wraps to its first song, from time 0,
    playing; no draw is consumed and the queues stay as they are. *)
Theorem nextSong_wraps (w : World) (current first : Song) :
  currentSong (state w) = Some current ->
  queue (state w) <> [] ->
  shuffle (state w) = false ->
  repeat (state w) = all ->
  findIndex (fun x => Song.same_id x current) (getEffectiveQueue (state w))
    = len (getEffectiveQueue (state w)) - 1 ->
  head (getEffectiveQueue (state w)) = Some first ->
  exists w' : World,
    nextSong w = Ok w' /\
    currentSong (state w') = Some first /\
    isPlaying (state w') = true /\
    currentTime (state w') = 0%Q /\
    duration (state w') = or_zero (Song.duration first) /\
    queue (state w') = queue (state w) /\
    originalQueue (state w') = originalQueue (state w) /\
    shuffledQueue (state w') = shuffledQueue (state w) /\
    draws w' = draws w.
Proof.
  intros Hcur Hq Hsh Hrep Hfind Hhead.
  set (eff := getEffectiveQueue (state w)) in *.
  assert (Hlen : 0 < len eff) by (destruct eff; [discriminate|reflexivity]).
  assert (Hat : at_index eff 0 = Some first) by (destruct eff; [discriminate|exact Hhead]).
  unfold nextSong. cbv zeta. fold eff. rewrite Hcur, Hfind, Hsh, Hrep.
  replace (len (queue (state w)) =? 0) with false
    by (destruct (queue (state w)); [contradiction|reflexivity]).
  replace (len eff - 1 =? -1) with false by lia.
  unfold getNextSongIndex.
  replace (len eff =? 0) with false by lia.
  rewrite Z.eqb_refl. cbn [RepeatMode_eqb andb mbind result_bind].
  replace (0 <? len eff) with true by lia.
  rewrite Hat.
  destruct (negb (Song.same_id current first));
    eexists; (split; [reflexivity|repeat split]).
Qed.

Lemma nextSong_wraps_witness :
  exists w' : World,
    nextSong at_last_song = Ok w' /\
    currentSong (state w') = Some song_A /\
    isPlaying (state w') = true /\
    currentTime (state w') = 0%Q /\
    duration (state w') = or_zero (Song.duration song_A) /\
    queue (state w') = queue (state at_last_song) /\
    originalQueue (state w') = originalQueue (state at_last_song) /\
    shuffledQueue (state w') = shuffledQueue (state at_last_song) /\
    draws w' = draws at_last_song.
Proof.
  apply (nextSong_wraps at_last_song song_C song_A); try reflexivity. discriminate.
Defined.

(** X5: without shuffle, [previousSong] steps to the song just before
    the current one; at the first song it wraps to the last one under
    repeat [all] and otherwise does nothing at all. The history is
    neither read nor written. *)
Theorem previousSong_in_order (w : World) (current : Song) (i : Z) :
  currentSong (state w) = Some current ->
  queue (state w) <> [] ->
  shuffle (state w) = false ->
  findIndex (fun x => Song.same_id x current) (getEffectiveQueue (state w)) = i ->
  i <> -1 ->
  (0 < i ->
   exists (p : Song) (w' : World),
     at_index (getEffectiveQueue (state w)) (i - 1) = Some p /\
     previousSong w = Ok w' /\ currentSong (state w') = Some p /\
     currentTime (state w') = 0%Q /\ playHistory w' = playHistory w) /\
  (i = 0 -> repeat (state w) = all ->
   exists (p : Song) (w' : World),
     last (getEffectiveQueue (state w)) = Some p /\
     previousSong w = Ok w' /\ currentSong (state w') = Some p /\
     currentTime (state w') = 0%Q /\ playHistory w' = playHistory w) /\
  (i = 0 -> repeat (state w) <> all -> previousSong w = Ok w).
Proof.
  intros Hcur Hq Hsh Hfind Hne.
  set (eff := getEffectiveQueue (state w)) in *.
  pose proof (findIndex_bounds (fun x => Song.same_id x current) eff) as Hb.
  rewrite Hfind in Hb.
  assert (Hstart : previousSong w =
    '(previousIndex, rest) ← getPreviousSongIndex i eff false (repeat (state w))
                               (playHistory w) (draws w);
    match previousIndex with
    | Some j =>
        if (0 <=? j) && (j <? len eff) then
          match at_index eff j with
          | None => Throw TypeError
          | Some previous => Ok (persist (set (switch_to previous) (w <| draws := rest |>)))
          end
        else Ok (w <| draws := rest |>)
    | None => Ok (w <| draws := rest |>)
    end).
  { unfold previousSong. cbv zeta. fold eff. rewrite Hcur, Hfind, Hsh.
    replace (len (queue (state w)) =? 0) with false
      by (destruct (queue (state w)); [contradiction|reflexivity]).
    replace (i =? -1) with false by lia. reflexivity. }
  rewrite Hstart. unfold getPreviousSongIndex.
  replace (len eff =? 0) with false by lia.
  repeat match goal with |- _ /\ _ => split end.
  - intros Hpos. replace (0 <? i) with true by lia.
    cbn [mbind result_bind].
    replace ((0 <=? i - 1) && (i - 1 <? len eff)) with true by lia.
    destruct (at_index_in_range eff (i - 1) ltac:(lia)) as [p Hp].
    rewrite Hp. exists p. eexists. repeat split.
  - intros -> Hall. rewrite Hall. cbn [Z.ltb Z.compare RepeatMode_eqb mbind result_bind].
    replace ((0 <=? len eff - 1) && (len eff - 1 <? len eff)) with true by lia.
    destruct (at_index_in_range eff (len eff - 1) ltac:(lia)) as [p Hp].
    rewrite Hp. exists p. eexists. split; [|repeat split].
    rewrite last_lookup. rewrite at_index_lookup in Hp by lia.
    rewrite <- Hp. f_equal. unfold len. lia.
  - intros -> Hnall. cbn [Z.ltb Z.compare].
    replace (RepeatMode_eqb (repeat (state w)) all) with false
      by (destruct (repeat (state w)); [reflexivity|reflexivity|contradiction]).
    cbn [mbind result_bind]. rewrite World_eta. reflexivity.
Qed.

Lemma previousSong_in_order_witness :
  (0 < 0 ->
   exists (p : Song) (w' : World),
     at_index (getEffectiveQueue (state (world_of three_songs))) (0 - 1) = Some p /\
     previousSong (world_of three_songs) = Ok w' /\ currentSong (state w') = Some p /\
     currentTime (state w') = 0%Q /\ playHistory w' = playHistory (world_of three_songs)) /\
  (0 = 0 -> repeat (state (world_of three_songs)) = all ->
   exists (p : Song) (w' : World),
     last (getEffectiveQueue (state (world_of three_songs))) = Some p /\
     previousSong (world_of three_songs) = Ok w' /\ currentSong (state w') = Some p /\
     currentTime (state w') = 0%Q /\ playHistory w' = playHistory (world_of three_songs)) /\
  (0 = 0 -> repeat (state (world_of three_songs)) <> all ->
   previousSong (world_of three_songs) = Ok (world_of three_songs)).
Proof.
  apply (previousSong_in_order (world_of three_songs) song_A 0);
    try reflexivity; discriminate.
Defined.

(** ** Playing a song *)

Lemma slice_but_last_snoc {A : Type} (l : list A) (x : A) :
  slice_but_last (l ++ [x]) = l.
Proof.
  unfold slice_but_last. rewrite length_app. simpl.
  replace (length l + 1 - 1)%nat with (length l) by lia.
  rewrite take_app_length. reflexivity.
Qed.

(** X6: under shuffle, [previousSong] right after [playSong(b)] goes back
    to the song that was current before, found in the effective queue by
    its id, and takes it off the history again. No draw is consumed. *)
Theorem previousSong_undoes_playSong (w : World) (a b : Song) :
  shuffle (state w) = true ->
  currentSong (state w) = Some a ->
  queue (state w) <> [] ->
  Song.same_id b a = false ->
  findIndex (fun x => Song.same_id x b) (getEffectiveQueue (state w)) <> -1 ->
  findIndex (Song.same_id a) (getEffectiveQueue (state w)) <> -1 ->
  exists (x : Song) (w' : World),
    previousSong (playSong b w) = Ok w' /\
    currentSong (state w') = Some x /\
    Song.same_id a x = true /\
    playHistory w' = trim_history (playHistory w) /\
    draws w' = draws w.
Proof.
  intros Hsh Hcur Hq Hdiff Hb Ha.
  set (eff := getEffectiveQueue (state w)) in *.
  destruct (findIndex_found _ _ Ha) as (x & Hx & Hax & _). fold eff in Hx.
  pose proof (findIndex_bounds (Song.same_id a) eff) as Hia.
  pose proof (findIndex_bounds (fun x => Song.same_id x b) eff) as Hib.
  set (w1 := playSong b w).
  assert (Hw1 : w1 = persist (set (switch_to b)
            (w <| playHistory := trim_history (playHistory w) ++ [a] |>))).
  { unfold w1, playSong. cbv zeta. fold eff. rewrite Hcur, Hdiff.
    replace (findIndex (fun x => Song.same_id x b) eff =? -1) with false by lia.
    reflexivity. }
  assert (Heff1 : getEffectiveQueue (state w1) = eff) by (rewrite Hw1; reflexivity).
  assert (Hcur1 : currentSong (state w1) = Some b) by (rewrite Hw1; reflexivity).
  assert (Hq1 : queue (state w1) = queue (state w)) by (rewrite Hw1; reflexivity).
  assert (Hsh1 : shuffle (state w1) = true) by (rewrite Hw1; exact Hsh).
  assert (Hh1 : playHistory w1 = trim_history (playHistory w) ++ [a])
    by (rewrite Hw1; reflexivity).
  assert (Hd1 : draws w1 = draws w) by (rewrite Hw1; reflexivity).
  clearbody w1.
  unfold previousSong. cbv zeta. rewrite Hcur1, Hq1, Heff1, Hsh1, Hh1.
  replace (len (queue (state w)) =? 0) with false
    by (destruct (queue (state w)); [contradiction|reflexivity]).
  replace (findIndex (fun x => Song.same_id x b) eff =? -1) with false by lia.
  unfold getPreviousSongIndex.
  replace (len eff =? 0) with false by lia.
  rewrite last_snoc.
  replace (findIndex (Song.same_id a) eff =? -1) with false by lia.
  cbn [mbind result_bind].
  replace ((0 <=? findIndex (Song.same_id a) eff)
           && (findIndex (Song.same_id a) eff <? len eff)) with true by lia.
  rewrite Hx. cbn [playHistory set_field set_draws].
  rewrite Hh1, last_snoc, Hax.
  replace (0 <? len (trim_history (playHistory w) ++ [a])) with true
    by (symmetry; apply Z.ltb_lt; unfold len; rewrite length_app; cbn [length]; lia).
  cbn [andb]. exists x. eexists. split; [reflexivity|].
  repeat split; [exact Hax|cbn; apply slice_but_last_snoc|exact Hd1].
Qed.

Lemma previousSong_undoes_playSong_witness :
  exists (x : Song) (w' : World),
    previousSong (playSong song_B shuffled_three) = Ok w' /\
    currentSong (state w') = Some x /\
    Song.same_id song_A x = true /\
    playHistory w' = trim_history (playHistory shuffled_three) /\
    draws w' = draws shuffled_three.
Proof.
  apply (previousSong_undoes_playSong shuffled_three song_A song_B);
    try reflexivity; discriminate.
Defined.

(** X7: unless shuffle is on with a shuffled queue at hand, the song
    given to [playSong] is in the effective queue afterwards, so that
    [nextSong] and [previousSong] can start from it; and playing a song
    that already is in the effective queue changes none of the queues. *)
Theorem playSong_joins_effective_queue (song : Song) (w : World) :
  shuffle (state w) = false \/ shuffledQueue (state w) = [] ->
  let s' := state (playSong song w) in
  currentSong s' = Some song /\
  findIndex (fun x => Song.same_id x song) (getEffectiveQueue s') <> -1 /\
  (findIndex (fun x => Song.same_id x song) (getEffectiveQueue (state w)) <> -1 ->
   queue s' = queue (state w) /\ originalQueue s' = originalQueue (state w) /\
   shuffledQueue s' = shuffledQueue (state w)).
Proof.
  intros Hmode. unfold playSong. cbv zeta.
  set (eff := getEffectiveQueue (state w)).
  destruct (Z.eqb_spec (findIndex (fun x => Song.same_id x song) eff) (-1)) as [Habs|Hin].
  - split; [reflexivity|]. split; [|intros H; contradiction].
    rewrite getEffectiveQueue_unfold. cbn.
    destruct (shuffle (state w)) eqn:Hsh.
    + destruct Hmode as [? | ->]; [discriminate|]. cbn.
      rewrite same_id_refl. discriminate.
    + cbn. rewrite same_id_refl. discriminate.
  - split; [reflexivity|]. split; [exact Hin|]. intros _. repeat split.
Qed.

Lemma playSong_joins_effective_queue_witness :
  let s' := state (playSong song_C (world_of lone_song)) in
  currentSong s' = Some song_C /\
  findIndex (fun x => Song.same_id x song_C) (getEffectiveQueue s') <> -1 /\
  (findIndex (fun x => Song.same_id x song_C)
     (getEffectiveQueue (state (world_of lone_song))) <> -1 ->
   queue s' = queue (state (world_of lone_song)) /\
   originalQueue s' = originalQueue (state (world_of lone_song)) /\
   shuffledQueue s' = shuffledQueue (state (world_of lone_song))).
Proof.
  apply (playSong_joins_effective_queue song_C (world_of lone_song)).
  left. reflexivity.
Defined.

(** ** Adding to the queue and toggling shuffle *)

Lemma existsb_same_id_In (song : Song) (q : list Song) :
  In song q -> existsb (fun x => Song.same_id x song) q = true.
Proof.
  intros H. apply existsb_exists. exists song. split; [exact H|apply same_id_refl].
Qed.

(** X8: [addToQueue] is idempotent as soon as [shuffleArray] answers a
    permutation of what it is given: adding the same song a second time
    changes nothing, with or without shuffle. *)
Theorem addToQueue_idempotent
    (shuffleArray : list Song -> list Q -> result (list Song * list Q))
    (song : Song) (w w1 : World) :
  (forall q d q' d', shuffleArray q d = Ok (q', d') -> Permutation q' q) ->
  addToQueue shuffleArray song w = Ok w1 ->
  addToQueue shuffleArray song w1 = Ok w1.
Proof.
  intros Hperm Hadd.
  assert (Hin : existsb (fun x => Song.same_id x song) (queue (state w1)) = true).
  { revert Hadd. unfold addToQueue. cbv zeta.
    destruct (existsb _ (queue (state w))) eqn:Hex; [intros [= <-]; exact Hex|].
    unfold mbind, result_bind.
    destruct (shuffle (state w)) eqn:Hsh.
    - destruct (shuffleArray _ _) as [[shuffled rest]| |] eqn:Hs; try discriminate.
      apply Hperm in Hs. intros [= <-].
      destruct (0 <? len shuffled) eqn:Hl; cbn; rewrite Hsh; cbn; rewrite ?Hl.
      + apply existsb_same_id_In. apply (Permutation_in _ (Permutation_sym Hs)).
        apply in_or_app. right. left. reflexivity.
      + rewrite existsb_app. cbn. rewrite same_id_refl. apply orb_true_r.
    - intros [= <-]. cbn. rewrite Hsh. cbn.
      rewrite existsb_app. cbn. rewrite same_id_refl. apply orb_true_r. }
  unfold addToQueue. cbv zeta. rewrite Hin. reflexivity.
Qed.

Lemma addToQueue_idempotent_witness :
  exists w1 : World,
    addToQueue reverse_order song_C (world_of shuffled_single) = Ok w1 /\
    addToQueue reverse_order song_C w1 = Ok w1.
Proof.
  eexists. split; [vm_compute; reflexivity|].
  apply (addToQueue_idempotent reverse_order song_C (world_of shuffled_single)).
  - intros q d q' d' [= <- _]. apply Permutation_sym, Permutation_rev.
  - vm_compute. reflexivity.
Defined.

(** X9: with a non-empty original queue, toggling shuffle twice gives
    back the shuffle flag and leaves the original queue and the current
    song alone; if shuffle was off to begin with, the visible queue is
    the original queue again, whatever order [shuffleArray] produced in
    between. *)
Theorem toggleShuffle_twice
    (shuffleArray : list Song -> list Q -> result (list Song * list Q))
    (w w1 w2 : World) :
  originalQueue (state w) <> [] ->
  toggleShuffle shuffleArray w = Ok w1 ->
  toggleShuffle shuffleArray w1 = Ok w2 ->
  shuffle (state w2) = shuffle (state w) /\
  originalQueue (state w2) = originalQueue (state w) /\
  currentSong (state w2) = currentSong (state w) /\
  (shuffle (state w) = false -> queue (state w2) = originalQueue (state w)) /\
  (shuffle (state w) = true -> queue (state w2) = shuffledQueue (state w2)).
Proof.
  intros Hne. unfold toggleShuffle, mbind, result_bind. cbv zeta.
  assert (Hpos : (0 <? len (originalQueue (state w))) = true)
    by (destruct (originalQueue (state w)); [contradiction|reflexivity]).
  destruct (shuffle (state w)) eqn:Hsh; cbn [negb].
  - intros [= <-]. cbn -[savePlayerState]. rewrite ?Hsh, ?Hpos. cbn -[savePlayerState].
    destruct (shuffleArray _ _) as [[shuffled rest]| |]; try discriminate.
    intros [= <-]. cbn -[savePlayerState].
    repeat match goal with |- _ /\ _ => split end;
      try reflexivity; try (intros _; reflexivity); discriminate.
  - destruct (shuffleArray _ _) as [[shuffled rest]| |]; try discriminate.
    intros [= <-]. cbn -[savePlayerState]. rewrite ?Hsh, ?Hpos. cbn -[savePlayerState].
    intros [= <-]. cbn -[savePlayerState]. rewrite ?Hpos.
    repeat match goal with |- _ /\ _ => split end;
      try reflexivity; try (intros _; reflexivity); discriminate.
Qed.

Lemma toggleShuffle_twice_witness :
  exists w1 w2 : World,
    toggleShuffle reverse_order (world_of three_songs) = Ok w1 /\
    toggleShuffle reverse_order w1 = Ok w2 /\
    queue (state w1) = [song_C; song_B; song_A] /\
    shuffle (state w2) = shuffle (state (world_of three_songs)) /\
    originalQueue (state w2) = originalQueue (state (world_of three_songs)) /\
    currentSong (state w2) = currentSong (state (world_of three_songs)) /\
    (shuffle (state (world_of three_songs)) = false ->
     queue (state w2) = originalQueue (state (world_of three_songs))) /\
    (shuffle (state (world_of three_songs)) = true ->
     queue (state w2) = shuffledQueue (state w2)).
Proof.
  eexists. eexists. split; [vm_compute; reflexivity|].
  split; [vm_compute; reflexivity|]. split; [reflexivity|].
  eapply (toggleShuffle_twice reverse_order (world_of three_songs));
    [discriminate|vm_compute; reflexivity|vm_compute; reflexivity].
Defined.

(** ** Removing from the queue *)

Lemma filter_out_index_length {A : Type} (i : Z) (arr : list A) :
  0 <= i < len arr -> len (filter_out_index i arr) = len arr - 1.
Proof.
  unfold filter_out_index, len. intros H.
  destruct (Z.ltb_spec i 0) as [?|_]; [lia|].
  rewrite length_app, length_take, length_drop. lia.
Qed.

Lemma filter_out_index_after {A : Type} (i j : Z) (arr : list A) :
  0 <= i <= j -> i < len arr ->
  at_index (filter_out_index i arr) j = at_index arr (j + 1).
Proof.
  unfold filter_out_index, len. intros Hij Hi.
  destruct (Z.ltb_spec i 0) as [?|_]; [lia|].
  rewrite !at_index_lookup by lia.
  rewrite lookup_app_r by (rewrite length_take; lia).
  rewrite length_take, lookup_drop. f_equal. lia.
Qed.

(** The part of [removeFromQueue] that follows the bounds check. *)
Lemma removeFromQueue_in_range (index : Z) (w : World) (removed : Song) :
  0 <= index < len (queue (state w)) ->
  at_index (getEffectiveQueue (state w)) index = Some removed ->
  removeFromQueue index w =
    (let s := state w in
     let effectiveQueue := getEffectiveQueue s in
     let newEffectiveQueue := filter_out_index index effectiveQueue in
     let keep := fun x : Song => negb (Song.same_id x removed) in
     let newOriginalQueue := List.filter keep (originalQueue s) in
     let newShuffledQueue := List.filter keep (shuffledQueue s) in
     let isCurrent :=
       match currentSong s with
       | Some current => Song.same_id current removed
       | None => false
       end in
     w ←
       (if isCurrent then
          '(nextIndex, rest) ←
             getNextSongIndex index newEffectiveQueue (shuffle s) (repeat s) (draws w);
          let w := w <| draws := rest |> in
          let stop := fun s : PlayerState =>
            s <| currentSong := None |>
              <| queue := newEffectiveQueue |>
              <| originalQueue := newOriginalQueue |>
              <| shuffledQueue := if shuffle s then newShuffledQueue else [] |>
              <| isPlaying := false |>
              <| currentTime := 0%Q |>
              <| duration := 0%Q |> in
          match nextIndex with
          | Some i =>
              if i <? len newEffectiveQueue then
                match at_index newEffectiveQueue i with
                | None => Throw TypeError
                | Some next =>
                    Ok (set (fun s =>
                      s <| currentSong := Some next |>
                        <| queue := newEffectiveQueue |>
                        <| originalQueue := newOriginalQueue |>
                        <| shuffledQueue := if shuffle s then newShuffledQueue else [] |>
                        <| isPlaying := true |>
                        <| currentTime := 0%Q |>
                        <| duration := or_zero (Song.duration next) |>) w)
                end
              else Ok (set stop w)
          | None => Ok (set stop w)
          end
        else
          Ok (set (fun s =>
            s <| queue := newEffectiveQueue |>
              <| originalQueue := newOriginalQueue |>
              <| shuffledQueue := if shuffle s then newShuffledQueue else [] |>) w));
     let w := store_call (saveQueue newEffectiveQueue) w in
     let w := store_call (saveOriginalQueue newOriginalQueue) w in
     let w := if shuffle s then store_call (saveShuffledQueue newShuffledQueue) w else w in
     Ok (persist w)).
Proof.
  intros Hi Hat. unfold removeFromQueue. cbv zeta.
  replace ((index <? 0) || (len (queue (state w)) <=? index)) with false by lia.
  rewrite Hat. reflexivity.
Qed.

(** X10: removing the current song when it is the last of the effective
    queue, with repeat [off], clears the current song and stops
    playback, with or without shuffle, and consumes no draw. *)
Theorem removeFromQueue_last_current (index : Z) (w : World) (current removed : Song) :
  0 <= index < len (queue (state w)) ->
  at_index (getEffectiveQueue (state w)) index = Some removed ->
  index = len (getEffectiveQueue (state w)) - 1 ->
  currentSong (state w) = Some current ->
  Song.same_id current removed = true ->
  repeat (state w) = off ->
  exists w' : World,
    removeFromQueue index w = Ok w' /\
    currentSong (state w') = None /\
    isPlaying (state w') = false /\
    currentTime (state w') = 0%Q /\
    duration (state w') = 0%Q /\
    queue (state w') = filter_out_index index (getEffectiveQueue (state w)) /\
    draws w' = draws w.
Proof.
  intros Hi Hat Hlast Hcur Hsame Hrep.
  rewrite (removeFromQueue_in_range index w removed Hi Hat). cbv zeta.
  rewrite Hcur, Hsame, Hrep.
  set (eff := getEffectiveQueue (state w)) in *.
  pose proof (at_index_Some_range _ _ _ Hat) as Hr.
  pose proof (filter_out_index_length index eff Hr) as Hlen.
  unfold getNextSongIndex.
  destruct (Z.eqb_spec (len (filter_out_index index eff)) 0) as [_|_];
    [|cbn [RepeatMode_eqb andb];
      replace (index <? len (filter_out_index index eff) - 1) with false by lia];
    cbn [mbind result_bind];
    destruct (shuffle (state w)); eexists; (split; [reflexivity|repeat split]).
Qed.

Lemma removeFromQueue_last_current_witness :
  exists w' : World,
    removeFromQueue 2 at_last_song_off = Ok w' /\
    currentSong (state w') = None /\
    isPlaying (state w') = false /\
    currentTime (state w') = 0%Q /\
    duration (state w') = 0%Q /\
    queue (state w')
      = filter_out_index 2 (getEffectiveQueue (state at_last_song_off)) /\
    draws w' = draws at_last_song_off.
Proof.
  apply (removeFromQueue_last_current 2 at_last_song_off song_C song_C);
    try reflexivity. split; [discriminate|reflexivity].
Defined.

(** X11: without shuffle and with repeat [off], removing the current
    song from the middle of the effective queue does not go on with the
    song that followed it but with the one after that; and when only one
    song followed, playback stops although that song is still queued. *)
Theorem removeFromQueue_current_skips (index : Z) (w : World) (current removed : Song) :
  0 <= index < len (queue (state w)) ->
  at_index (getEffectiveQueue (state w)) index = Some removed ->
  currentSong (state w) = Some current ->
  Song.same_id current removed = true ->
  shuffle (state w) = false ->
  repeat (state w) = off ->
  (index + 2 < len (getEffectiveQueue (state w)) ->
   exists (next : Song) (w' : World),
     at_index (getEffectiveQueue (state w)) (index + 2) = Some next /\
     removeFromQueue index w = Ok w' /\
     currentSong (state w') = Some next /\
     isPlaying (state w') = true) /\
  (index + 2 = len (getEffectiveQueue (state w)) ->
   exists (follower : Song) (w' : World),
     at_index (getEffectiveQueue (state w)) (index + 1) = Some follower /\
     removeFromQueue index w = Ok w' /\
     currentSong (state w') = None /\
     isPlaying (state w') = false /\
     queue (state w') = filter_out_index index (getEffectiveQueue (state w)) /\
     at_index (queue (state w')) index = Some follower).
Proof.
  intros Hi Hat Hcur Hsame Hsh Hrep.
  rewrite (removeFromQueue_in_range index w removed Hi Hat). cbv zeta.
  rewrite Hcur, Hsame, Hrep, Hsh.
  set (eff := getEffectiveQueue (state w)) in *.
  pose proof (at_index_Some_range _ _ _ Hat) as Hr.
  pose proof (filter_out_index_length index eff Hr) as Hlen.
  unfold getNextSongIndex. cbn [RepeatMode_eqb andb].
  split; intros Hpos.
  - replace (len (filter_out_index index eff) =? 0) with false by lia.
    replace (index <? len (filter_out_index index eff) - 1) with true by lia.
    cbn [mbind result_bind].
    replace (index + 1 <? len (filter_out_index index eff)) with true by lia.
    rewrite filter_out_index_after by lia.
    replace (index + 1 + 1) with (index + 2) by lia.
    destruct (at_index_in_range eff (index + 2) ltac:(lia)) as [next Hnext].
    rewrite Hnext. exists next. eexists. repeat split.
  - replace (len (filter_out_index index eff) =? 0) with false by lia.
    replace (index <? len (filter_out_index index eff) - 1) with false by lia.
    cbn [mbind result_bind].
    destruct (at_index_in_range eff (index + 1) ltac:(lia)) as [follower Hf].
    exists follower. eexists.
    split; [exact Hf|]. split; [reflexivity|]. repeat split.
    cbn. rewrite filter_out_index_after by lia. exact Hf.
Qed.

Lemma removeFromQueue_current_skips_witness :
  (0 + 2 < len (getEffectiveQueue (state (world_of three_songs))) ->
   exists (next : Song) (w' : World),
     at_index (getEffectiveQueue (state (world_of three_songs))) (0 + 2) = Some next /\
     removeFromQueue 0 (world_of three_songs) = Ok w' /\
     currentSong (state w') = Some next /\
     isPlaying (state w') = true) /\
  (0 + 2 = len (getEffectiveQueue (state (world_of three_songs))) ->
   exists (follower : Song) (w' : World),
     at_index (getEffectiveQueue (state (world_of three_songs))) (0 + 1) = Some follower /\
     removeFromQueue 0 (world_of three_songs) = Ok w' /\
     currentSong (state w') = None /\
     isPlaying (state w') = false /\
     queue (state w')
       = filter_out_index 0 (getEffectiveQueue (state (world_of three_songs))) /\
     at_index (queue (state w')) 0 = Some follower).
Proof.
  apply (removeFromQueue_current_skips 0 (world_of three_songs) song_A song_A);
    try reflexivity. split; [discriminate|reflexivity].
Defined.

Lemma filter_keep_Forall (removed : Song) (q : list Song) :
  Forall (fun x => Song.same_id x removed = false)
    (List.filter (fun x => negb (Song.same_id x removed)) q).
Proof.
  induction q as [|x q IH]; simpl; [constructor|].
  destruct (Song.same_id x removed) eqn:E; simpl; [exact IH|].
  constructor; assumption.
Qed.

(** X12: removing a song that is not the current one keeps the current
    song and the playback flags, shortens the visible queue by one, and
    leaves no song with the removed id in the original and the shuffled
    queue. No draw is consumed. *)
Theorem removeFromQueue_other (index : Z) (w : World) (removed : Song) :
  0 <= index < len (queue (state w)) ->
  at_index (getEffectiveQueue (state w)) index = Some removed ->
  match currentSong (state w) with
  | Some current => Song.same_id current removed = false
  | None => True
  end ->
  exists w' : World,
    removeFromQueue index w = Ok w' /\
    currentSong (state w') = currentSong (state w) /\
    isPlaying (state w') = isPlaying (state w) /\
    currentTime (state w') = currentTime (state w) /\
    len (queue (state w')) = len (getEffectiveQueue (state w)) - 1 /\
    Forall (fun x => Song.same_id x removed = false) (originalQueue (state w')) /\
    Forall (fun x => Song.same_id x removed = false) (shuffledQueue (state w')) /\
    draws w' = draws w.
Proof.
  intros Hi Hat Hother.
  rewrite (removeFromQueue_in_range index w removed Hi Hat). cbv zeta.
  pose proof (at_index_Some_range _ _ _ Hat) as Hr.
  pose proof (filter_out_index_length index _ Hr) as Hlen.
  assert (Hnot : match currentSong (state w) with
                 | Some current => Song.same_id current removed
                 | None => false
                 end = false)
    by (destruct (currentSong (state w)); [exact Hother|reflexivity]).
  rewrite Hnot. cbn [mbind result_bind].
  destruct (shuffle (state w)) eqn:Hsh; eexists;
    (split; [reflexivity|]); cbn; rewrite ?Hsh;
    repeat match goal with |- _ /\ _ => split end;
    try reflexivity; try exact Hlen; try apply filter_keep_Forall; constructor.
Qed.

Lemma removeFromQueue_other_witness :
  exists w' : World,
    removeFromQueue 1 (world_of three_songs) = Ok w' /\
    currentSong (state w') = currentSong (state (world_of three_songs)) /\
    isPlaying (state w') = isPlaying (state (world_of three_songs)) /\
    currentTime (state w') = currentTime (state (world_of three_songs)) /\
    len (queue (state w')) = len (getEffectiveQueue (state (world_of three_songs))) - 1 /\
    Forall (fun x => Song.same_id x song_B = false) (originalQueue (state w')) /\
    Forall (fun x => Song.same_id x song_B = false) (shuffledQueue (state w')) /\
    draws w' = draws (world_of three_songs).
Proof.
  apply (removeFromQueue_other 1 (world_of three_songs) song_B);
    [split; [discriminate|reflexivity] | reflexivity | reflexivity].
Defined.

(** ** When the queue actions throw *)

Lemma at_index_None_iff {A : Type} (arr : list A) (i : Z) :
  0 <= i -> (at_index arr i = None <-> len arr <= i).
Proof.
  intros H. rewrite at_index_lookup by lia. rewrite lookup_ge_None. unfold len. lia.
Qed.

Lemma getNextSongIndex_nonneg
    (currentIndex : Z) (queue : list Song) (shuffle : bool) (repeat : RepeatMode)
    (draws rest : list Q) (i : Z) :
  0 <= currentIndex ->
  Forall unit_draw draws ->
  getNextSongIndex currentIndex queue shuffle repeat draws = Ok (Some i, rest) ->
  0 <= i.
Proof.
  intros Hci Hd. unfold getNextSongIndex, len.
  destruct (Z.eqb_spec (Z.of_nat (length queue)) 0) as [|Hn]; [discriminate|].
  assert (Hpos : (0 < length queue)%nat) by lia.
  assert (Hrandom : forall r,
    ('(j, d) ← draw_index (length queue) draws;
     '(j, d) ← resample currentIndex (length queue) j d; Ok (Some j, d))
      = Ok (Some i, r) -> 0 <= i).
  { intros r H. apply draw_resample_range in H as [(j & [= <-] & Hj) _]; auto. lia. }
  destruct (RepeatMode_eqb repeat one); [intros [= <- _]; exact Hci|].
  destruct (RepeatMode_eqb repeat all && (currentIndex =? Z.of_nat (length queue) - 1)).
  { destruct shuffle; [|intros [= <- _]; lia].
    unfold mbind, result_bind.
    destruct (draw_index (length queue) draws) as [[j d]| |] eqn:E; try discriminate.
    intros [= <- _]. apply (draw_index_range _ _ _ _ Hd Hpos E). }
  destruct (currentIndex <? Z.of_nat (length queue) - 1).
  { destruct shuffle; [apply Hrandom|intros [= <- _]; lia]. }
  destruct (RepeatMode_eqb repeat all); [|discriminate].
  destruct shuffle; [apply Hrandom|intros [= <- _]; lia].
Qed.

(** X13: with draws in [[0, 1)], [removeFromQueue] throws exactly when
    the index names a position of the visible queue that the effective
    queue does not have; in particular never when the visible queue is
    no longer than the effective one. *)
Theorem removeFromQueue_throws_iff (index : Z) (w : World) :
  Forall unit_draw (draws w) ->
  (removeFromQueue index w = Throw TypeError <->
   0 <= index < len (queue (state w)) /\
   len (getEffectiveQueue (state w)) <= index).
Proof.
  intros Hd. split.
  - intros Hthrow.
    assert (Hi : 0 <= index < len (queue (state w))).
    { unfold removeFromQueue in Hthrow. revert Hthrow. cbv zeta.
      destruct (Z.ltb_spec index 0); cbn [orb]; [discriminate|].
      destruct (Z.leb_spec (len (queue (state w))) index); [discriminate|].
      intros _. lia. }
    split; [exact Hi|].
    destruct (at_index (getEffectiveQueue (state w)) index) as [removed|] eqn:Hat;
      [|apply at_index_None_iff; [lia|exact Hat]].
    exfalso. revert Hthrow.
    rewrite (removeFromQueue_in_range index w removed Hi Hat). cbv zeta.
    unfold mbind at 1, result_bind at 1.
    match goal with
    | |- match ?inner with _ => _ end = _ -> _ =>
        assert (Hinner : forall e, inner <> Throw e);
        [|destruct inner as [w1| |] eqn:E; [discriminate| |discriminate];
          intros _; exact (Hinner _ eq_refl)]
    end.
    intros e.
    destruct (match currentSong (state w) with
              | Some current => Song.same_id current removed
              | None => false
              end); [|discriminate].
    unfold mbind, result_bind.
    destruct (getNextSongIndex index _ _ _ _) as [[[i|] rest]| |] eqn:E;
      try discriminate.
    + pose proof (getNextSongIndex_nonneg _ _ _ _ _ _ _ (proj1 Hi) Hd E) as H0.
      destruct (Z.ltb_spec i (len (filter_out_index index (getEffectiveQueue (state w)))))
        as [H1|]; [|discriminate].
      destruct (at_index_in_range _ i (conj H0 H1)) as [next ->]. discriminate.
    + intros [= <-]. exact (getNextSongIndex_no_throw _ _ _ _ _ _ E).
  - intros [Hi Hge]. unfold removeFromQueue. cbv zeta.
    replace ((index <? 0) || (len (queue (state w)) <=? index)) with false by lia.
    replace (at_index (getEffectiveQueue (state w)) index) with (@None Song)
      by (symmetry; apply at_index_None_iff; lia).
    reflexivity.
Qed.

Lemma removeFromQueue_throws_iff_witness :
  removeFromQueue 1 after_stray_play = Throw TypeError <->
  0 <= 1 < len (queue (state after_stray_play)) /\
  len (getEffectiveQueue (state after_stray_play)) <= 1.
Proof.
  apply (removeFromQueue_throws_iff 1 after_stray_play). constructor.
Defined.

(** [reorderQueue] throws exactly when both indices name positions
    of the visible queue and the effective queue has no position
    [from]. *)
Theorem reorderQueue_throws_iff (from to : Z) (w : World) :
  reorderQueue from to w = Throw TypeError <->
  (0 <= from < len (queue (state w)) /\ 0 <= to < len (queue (state w))) /\
  len (getEffectiveQueue (state w)) <= from.
Proof.
  unfold reorderQueue. cbv zeta.
  destruct (Z.ltb_spec from 0); cbn [orb];
    [split; [discriminate|lia]|].
  destruct (Z.leb_spec (len (queue (state w))) from); cbn [orb];
    [split; [discriminate|lia]|].
  destruct (Z.ltb_spec to 0); cbn [orb];
    [split; [discriminate|lia]|].
  destruct (Z.leb_spec (len (queue (state w))) to); cbn [orb];
    [split; [discriminate|lia]|].
  destruct (at_index (getEffectiveQueue (state w)) from) as [moved|] eqn:Hat.
  - apply at_index_Some_range in Hat. split; [discriminate|lia].
  - apply at_index_None_iff in Hat; [|lia]. split; [intros _; lia|reflexivity].
Qed.

(** ** Reordering the queue *)

Lemma findIndex_first_match {A : Type} (p : A -> bool) (arr : list A) :
  forall (n : nat) (x : A),
    arr !! n = Some x -> p x = true ->
    (forall (j : nat) (y : A), (j < n)%nat -> arr !! j = Some y -> p y = false) ->
    findIndex p arr = Z.of_nat n.
Proof.
  induction arr as [|a arr IH]; intros n x Hn Hp Hbefore; [discriminate|].
  destruct n as [|n]; simpl in *.
  - injection Hn as ->. rewrite Hp. reflexivity.
  - rewrite (Hbefore 0%nat a) by (lia || reflexivity).
    rewrite (IH n x Hn Hp).
    + destruct (Z.eqb_spec (Z.of_nat n) (-1)); lia.
    + intros j y Hj Hy. apply (Hbefore (S j) y); [lia|exact Hy].
Qed.

Lemma NoDup_ids_same_id (q : list Song) (i j : nat) (x y : Song) :
  NoDup (ids q) -> q !! i = Some x -> q !! j = Some y ->
  Song.same_id y x = true -> i = j.
Proof.
  intros Hnd Hi Hj Hsame. apply String.eqb_eq in Hsame.
  apply (NoDup_lookup (ids q) i j (Song.id x)); [exact Hnd| |]; unfold ids;
    rewrite list_lookup_fmap; [rewrite Hi|rewrite Hj]; simpl; congruence.
Qed.

Lemma splice_insert_remove {A : Type} (arr : list A) (i : Z) (x : A) :
  at_index arr i = Some x -> splice_insert i x (splice_remove i arr) = arr.
Proof.
  intros Hat. pose proof (at_index_Some_range _ _ _ Hat) as Hr.
  rewrite at_index_lookup in Hat by lia. unfold len in Hr.
  unfold splice_insert, splice_remove.
  rewrite take_app_le by (rewrite length_take; lia).
  rewrite take_take, Nat.min_id.
  rewrite drop_app_ge by (rewrite length_take; lia).
  rewrite length_take, Nat.min_l, Nat.sub_diag by lia. simpl.
  rewrite <- (take_drop_middle arr (Z.to_nat i) x Hat) at 3. reflexivity.
Qed.

Lemma splice_insert_at {A : Type} (arr : list A) (i : Z) (x : A) :
  0 <= i <= len arr -> at_index (splice_insert i x arr) i = Some x.
Proof.
  intros Hi. unfold len in Hi. rewrite at_index_lookup by lia. unfold splice_insert.
  rewrite lookup_app_r by (rewrite length_take; lia).
  rewrite length_take, Nat.min_l, Nat.sub_diag by lia. reflexivity.
Qed.

(** X14: the queue as the store keeps it without shuffle (visible queue
    and original queue equal, ids unique). [reorderQueue(from, to)] moves
    the song in the visible queue; it mirrors the move into the original
    queue only when [to <= from]. For [from < to] the original queue,
    which is the effective queue that [nextSong] follows, stays in its
    old order. *)
Theorem reorderQueue_mirroring (from to : Z) (w w' : World) :
  shuffle (state w) = false ->
  originalQueue (state w) <> [] ->
  queue (state w) = originalQueue (state w) ->
  NoDup (ids (originalQueue (state w))) ->
  0 <= from < len (queue (state w)) ->
  0 <= to < len (queue (state w)) ->
  reorderQueue from to w = Ok w' ->
  exists moved : Song,
    at_index (originalQueue (state w)) from = Some moved /\
    queue (state w')
      = splice_insert to moved (splice_remove from (originalQueue (state w))) /\
    at_index (queue (state w')) to = Some moved /\
    (to <= from -> originalQueue (state w') = queue (state w')) /\
    (from <= to ->
     originalQueue (state w') = originalQueue (state w) /\
     getEffectiveQueue (state w') = getEffectiveQueue (state w)).
Proof.
  intros Hsh Hne Hq Hnd Hfrom Hto. rewrite Hq in Hfrom, Hto.
  set (orig := originalQueue (state w)) in *.
  assert (Heff : getEffectiveQueue (state w) = orig).
  { rewrite getEffectiveQueue_unfold, Hsh. case_bool_decide; [contradiction|reflexivity]. }
  destruct (at_index_in_range orig from Hfrom) as [moved Hmoved].
  destruct (at_index_in_range orig to Hto) as [target Htarget].
  pose proof Hmoved as Hm'. pose proof Htarget as Ht'.
  rewrite at_index_lookup in Hm', Ht' by lia.
  assert (HfromIdx : findIndex (fun x => Song.same_id x moved) orig = from).
  { rewrite (findIndex_first_match (fun x => Song.same_id x moved) orig
               (Z.to_nat from) moved Hm' (same_id_refl _)); [lia|].
    intros j y Hj Hy. destruct (Song.same_id y moved) eqn:E; [|reflexivity].
    pose proof (NoDup_ids_same_id orig _ _ _ _ Hnd Hm' Hy E). lia. }
  assert (HtoIdx : findIndex (fun x => Song.same_id x target || Song.same_id x moved) orig
                   = Z.min from to).
  { destruct (Z.le_ge_cases from to) as [Hle|Hge].
    - rewrite (findIndex_first_match
                 (fun x => Song.same_id x target || Song.same_id x moved) orig
                 (Z.to_nat from) moved Hm');
        [lia|rewrite same_id_refl; apply orb_true_r|].
      intros j y Hj Hy. apply orb_false_iff. split.
      + destruct (Song.same_id y target) eqn:E; [|reflexivity].
        pose proof (NoDup_ids_same_id orig _ _ _ _ Hnd Ht' Hy E). lia.
      + destruct (Song.same_id y moved) eqn:E; [|reflexivity].
        pose proof (NoDup_ids_same_id orig _ _ _ _ Hnd Hm' Hy E). lia.
    - rewrite (findIndex_first_match
                 (fun x => Song.same_id x target || Song.same_id x moved) orig
                 (Z.to_nat to) target Ht');
        [lia|rewrite same_id_refl; reflexivity|].
      intros j y Hj Hy. apply orb_false_iff. split.
      + destruct (Song.same_id y target) eqn:E; [|reflexivity].
        pose proof (NoDup_ids_same_id orig _ _ _ _ Hnd Ht' Hy E). lia.
      + destruct (Song.same_id y moved) eqn:E; [|reflexivity].
        pose proof (NoDup_ids_same_id orig _ _ _ _ Hnd Hm' Hy E). lia. }
  unfold reorderQueue. cbv zeta. rewrite Hq. fold orig. rewrite Heff.
  replace ((from <? 0) || (len orig <=? from) || (to <? 0) || (len orig <=? to))
    with false by lia.
  rewrite Hmoved, Htarget, HfromIdx, HtoIdx, Hmoved.
  replace (negb (from =? -1) && negb (Z.min from to =? -1)) with true by lia.
  intros [= <-]. exists moved. cbn -[savePlayerState]. rewrite Hsh.
  assert (Hlenrem : length (splice_remove from orig) = (length orig - 1)%nat).
  { unfold splice_remove, len in *. rewrite length_app, length_take, length_drop. lia. }
  split; [reflexivity|]. split; [reflexivity|]. split; [|split].
  - apply splice_insert_at. unfold len in *. lia.
  - intros Hle. rewrite Z.min_r by lia. reflexivity.
  - intros Hle. rewrite Z.min_l by lia.
    assert (Hsame : splice_insert from moved (splice_remove from orig) = orig).
    { apply splice_insert_remove. exact Hmoved. }
    split; [exact Hsame|].
    rewrite getEffectiveQueue_unfold. cbn -[savePlayerState]. rewrite Hsh, Hsame.
    case_bool_decide; [contradiction|reflexivity].
Qed.

Lemma reorderQueue_mirroring_witness :
  match reorderQueue 0 2 (world_of three_songs) with
  | Ok w' =>
      exists moved : Song,
        at_index (originalQueue (state (world_of three_songs))) 0 = Some moved /\
        queue (state w')
          = splice_insert 2 moved
              (splice_remove 0 (originalQueue (state (world_of three_songs)))) /\
        at_index (queue (state w')) 2 = Some moved /\
        (2 <= 0 -> originalQueue (state w') = queue (state w')) /\
        (0 <= 2 ->
         originalQueue (state w') = originalQueue (state (world_of three_songs)) /\
         getEffectiveQueue (state w')
           = getEffectiveQueue (state (world_of three_songs)))
  | _ => False
  end.
Proof.
  destruct (reorderQueue 0 2 (world_of three_songs)) as [w'| |] eqn:E;
    [|vm_compute in E; discriminate E|vm_compute in E; discriminate E].
  apply (reorderQueue_mirroring 0 2 (world_of three_songs) w');
    [reflexivity | discriminate | reflexivity
    | apply (bool_decide_unpack _); vm_compute; exact I
    | split; [discriminate|reflexivity] | split; [discriminate|reflexivity]
    | exact E].
Defined.

(** X15: under shuffle [reorderQueue] does not show the move. When the
    visible queue mirrors a shuffled queue, it keeps its order; when no
    shuffled queue exists, the visible queue is emptied. *)
Theorem reorderQueue_under_shuffle (from to : Z) (w w' : World) :
  shuffle (state w) = true ->
  0 <= from < len (queue (state w)) ->
  0 <= to < len (queue (state w)) ->
  reorderQueue from to w = Ok w' ->
  shuffledQueue (state w') = shuffledQueue (state w) /\
  (shuffle_mirrored (state w) -> shuffledQueue (state w) <> [] ->
   queue (state w') = queue (state w)) /\
  (shuffledQueue (state w) = [] -> queue (state w') = []).
Proof.
  intros Hsh Hfrom Hto. unfold reorderQueue. cbv zeta.
  replace ((from <? 0) || (len (queue (state w)) <=? from) || (to <? 0)
           || (len (queue (state w)) <=? to)) with false by lia.
  destruct (at_index (getEffectiveQueue (state w)) from) as [moved|]; [|discriminate].
  intros [= <-]. cbn -[savePlayerState]. rewrite Hsh.
  split; [reflexivity|]. split.
  - intros Hm Hne. symmetry. apply Hm; assumption.
  - intros ->. reflexivity.
Qed.

Lemma reorderQueue_under_shuffle_witness :
  exists w' : World,
    reorderQueue 0 1 empty_shuffle = Ok w' /\
    queue (state empty_shuffle) = [song_B; song_A] /\
    shuffledQueue (state w') = shuffledQueue (state empty_shuffle) /\
    (shuffle_mirrored (state empty_shuffle) ->
     shuffledQueue (state empty_shuffle) <> [] ->
     queue (state w') = queue (state empty_shuffle)) /\
    (shuffledQueue (state empty_shuffle) = [] -> queue (state w') = []).
Proof.
  eexists. split; [vm_compute; reflexivity|]. split; [reflexivity|].
  apply (reorderQueue_under_shuffle 0 1 empty_shuffle);
    [reflexivity | split; [discriminate|reflexivity]
    | split; [discriminate|reflexivity] | vm_compute; reflexivity].
Defined.

(** ** The visible queue under shuffle, action by action *)

Lemma filter_keep_all (removed : Song) (q : list Song) :
  Forall (fun x => Song.same_id x removed = false) q ->
  List.filter (fun x => negb (Song.same_id x removed)) q = q.
Proof.
  induction 1 as [|x q Hx _ IH]; simpl; [reflexivity|]. rewrite Hx, IH. reflexivity.
Qed.

Lemma filter_out_index_by_id (q : list Song) :
  forall (n : nat) (removed : Song),
    NoDup (ids q) -> q !! n = Some removed ->
    take n q ++ drop (S n) q
      = List.filter (fun x => negb (Song.same_id x removed)) q.
Proof.
  induction q as [|a q IH]; intros n removed Hnd Hn; [discriminate|].
  assert (Hnd' : NoDup (ids q)) by (inversion Hnd; assumption).
  destruct n as [|n]; simpl in *.
  - injection Hn as ->. rewrite same_id_refl. simpl. rewrite drop_0.
    symmetry. apply filter_keep_all. apply Forall_lookup_2. intros j y Hy.
    destruct (Song.same_id y removed) eqn:E; [|reflexivity].
    pose proof (NoDup_ids_same_id (removed :: q) 0 (S j) removed y Hnd
                  eq_refl Hy E). discriminate.
  - assert (Ha : Song.same_id a removed = false).
    { destruct (Song.same_id a removed) eqn:E; [|reflexivity].
      pose proof (NoDup_ids_same_id (a :: q) (S n) 0 removed a Hnd Hn eq_refl E).
      discriminate. }
    rewrite Ha. simpl. f_equal. apply IH; assumption.
Qed.

Lemma removeFromQueue_queues (index : Z) (w w' : World) (removed : Song) :
  0 <= index < len (queue (state w)) ->
  at_index (getEffectiveQueue (state w)) index = Some removed ->
  removeFromQueue index w = Ok w' ->
  shuffle (state w') = shuffle (state w) /\
  queue (state w') = filter_out_index index (getEffectiveQueue (state w)) /\
  shuffledQueue (state w') =
    (if shuffle (state w)
     then List.filter (fun x => negb (Song.same_id x removed)) (shuffledQueue (state w))
     else []).
Proof.
  intros Hi Hat. rewrite (removeFromQueue_in_range index w removed Hi Hat). cbv zeta.
  unfold mbind, result_bind.
  repeat case_match; try discriminate; simplify_eq;
    intros [= <-]; cbn -[savePlayerState]; repeat split;
    repeat case_match; try reflexivity; congruence.
Qed.

Lemma initializeFromStorage_mirrored (w : World) :
  shuffle_mirrored (state (initializeFromStorage w)).
Proof.
  unfold shuffle_mirrored, initializeFromStorage, loadPlayerState. cbv zeta.
  destruct (match getString KEYS.CURRENT_SONG (storage w) with
            | Some t => _ | None => _ end) as [cur|];
    [|cbn -[savePlayerState]; discriminate].
  cbn -[savePlayerState loadQueue loadShuffledQueue loadOriginalQueue].
  intros ->. cbn [andb].
  destruct (0 <? len (loadShuffledQueue (storage w)));
    cbn; [reflexivity|contradiction].
Qed.

Lemma navigation_keeps_queues (w w' : World) :
  nextSong w = Ok w' \/ previousSong w = Ok w' ->
  queue (state w') = queue (state w) /\
  originalQueue (state w') = originalQueue (state w) /\
  shuffledQueue (state w') = shuffledQueue (state w) /\
  shuffle (state w') = shuffle (state w) /\
  repeat (state w') = repeat (state w) /\
  volume (state w') = volume (state w).
Proof.
  unfold nextSong, previousSong, mbind, result_bind.
  intros [H|H]; repeat case_match; simplify_eq; repeat split.
Qed.

(** X16: every action of the store keeps the visible queue equal to the
    shuffled queue (under shuffle, when a shuffled queue exists), except
    [playSong] for a song outside the effective queue;
    [removeFromQueue] needs the ids of the shuffled queue to be unique. *)
Theorem shuffle_mirrored_kept
    (shuffleArray : list Song -> list Q -> result (list Song * list Q))
    (a : action) (w w' : World) :
  match a with
  | APlaySong song =>
      findIndex (fun x => Song.same_id x song) (getEffectiveQueue (state w)) <> -1
  | ARemoveFromQueue _ => NoDup (ids (shuffledQueue (state w)))
  | _ => True
  end ->
  shuffle_mirrored (state w) ->
  perform shuffleArray a w = Ok w' ->
  shuffle_mirrored (state w').
Proof.
  intros Hside Hm. destruct a; simpl.
  - (* playSong *)
    intros [= <-]. unfold playSong. cbv zeta.
    destruct (Z.eqb_spec (findIndex (fun x => Song.same_id x song)
                            (getEffectiveQueue (state w))) (-1));
      [contradiction|exact Hm].
  - intros [= <-]. exact Hm.
  - intros [= <-]. unfold resumeSong. destruct (currentSong (state w)); exact Hm.
  - intros H. destruct (navigation_keeps_queues w w' (or_introl H))
      as (Hq & _ & Hs & Hsh & _).
    unfold shuffle_mirrored. rewrite Hq, Hs, Hsh. exact Hm.
  - intros H. destruct (navigation_keeps_queues w w' (or_intror H))
      as (Hq & _ & Hs & Hsh & _).
    unfold shuffle_mirrored. rewrite Hq, Hs, Hsh. exact Hm.
  - intros [= <-]. exact Hm.
  - (* addToQueue *)
    intros H.
    destruct (existsb (fun x => Song.same_id x song) (queue (state w))) eqn:Hex.
    { unfold addToQueue in H. cbv zeta in H. rewrite Hex in H.
      injection H as <-. exact Hm. }
    destruct (shuffle (state w)) eqn:Hsh.
    + intros _ Hne. exact (addToQueue_shuffle_mirrors _ _ _ _ Hsh Hex H Hne).
    + unfold addToQueue, mbind, result_bind in H. cbv zeta in H.
      rewrite Hex, Hsh in H. injection H as <-.
      cbn -[savePlayerState]. rewrite Hsh. cbn -[savePlayerState].
      unfold shuffle_mirrored. cbn -[savePlayerState]. rewrite Hsh. discriminate.
  - (* removeFromQueue *)
    intros H.
    destruct (Z.ltb_spec index 0) as [Hneg|Hnn].
    { unfold removeFromQueue in H. cbv zeta in H.
      replace (index <? 0) with true in H by lia. injection H as <-. exact Hm. }
    destruct (Z.leb_spec (len (queue (state w))) index) as [Hout|Hin].
    { unfold removeFromQueue in H. cbv zeta in H.
      replace ((index <? 0) || (len (queue (state w)) <=? index)) with true in H by lia.
      injection H as <-. exact Hm. }
    destruct (at_index (getEffectiveQueue (state w)) index) as [removed|] eqn:Hat.
    2:{ unfold removeFromQueue in H. cbv zeta in H.
        replace ((index <? 0) || (len (queue (state w)) <=? index)) with false in H by lia.
        rewrite Hat in H. discriminate. }
    destruct (removeFromQueue_queues index w w' removed (conj Hnn Hin) Hat H)
      as (Hsh & Hq & Hs).
    unfold shuffle_mirrored. rewrite Hsh, Hq, Hs. intros Hon. rewrite Hon.
    intros Hne.
    assert (Hsq : shuffledQueue (state w) <> [])
      by (intros E; rewrite E in Hne; contradiction).
    assert (Heff : getEffectiveQueue (state w) = shuffledQueue (state w)).
    { rewrite getEffectiveQueue_unfold, Hon. case_bool_decide; [contradiction|reflexivity]. }
    rewrite Heff in *. unfold filter_out_index.
    replace (index <? 0) with false by lia.
    apply filter_out_index_by_id; [exact Hside|].
    rewrite at_index_lookup in Hat by lia. exact Hat.
  - (* reorderQueue *)
    unfold reorderQueue. cbv zeta.
    destruct ((from <? 0) || (len (queue (state w)) <=? from) || (to <? 0)
              || (len (queue (state w)) <=? to)); [intros [= <-]; exact Hm|].
    destruct (at_index (getEffectiveQueue (state w)) from); [|discriminate].
    intros [= <-]. unfold shuffle_mirrored. cbn -[savePlayerState].
    intros ->. reflexivity.
  - intros [= <-]. unfold shuffle_mirrored. cbn -[savePlayerState]. contradiction.
  - (* toggleShuffle *)
    intros H. destruct (shuffle (state w)) eqn:Hsh.
    + unfold toggleShuffle in H. cbv zeta in H. rewrite Hsh in H.
      cbn [negb] in H. injection H as <-.
      unfold shuffle_mirrored. cbn -[savePlayerState]. discriminate.
    + destruct (toggleShuffle_on_mirrors _ _ _ Hsh H) as [_ Hq]. intros _ _. exact Hq.
  - intros [= <-]. exact Hm.
  - intros [= <-]. exact Hm.
  - intros [= <-]. exact Hm.
  - intros [= <-]. exact Hm.
  - intros [= <-]. exact Hm.
  - intros [= <-]. exact Hm.
  - intros [= <-]. exact Hm.
  - intros [= <-]. apply initializeFromStorage_mirrored.
Qed.

Lemma shuffle_mirrored_kept_witness :
  match perform reverse_order (ARemoveFromQueue 0) shuffled_three with
  | Ok w' => shuffle_mirrored (state w')
  | _ => False
  end.
Proof.
  destruct (perform reverse_order (ARemoveFromQueue 0) shuffled_three)
    as [w'| |] eqn:E;
    [|vm_compute in E; discriminate E|vm_compute in E; discriminate E].
  apply (shuffle_mirrored_kept reverse_order (ARemoveFromQueue 0) shuffled_three w');
    [apply (bool_decide_unpack _); vm_compute; exact I
    | intros _ _; reflexivity | exact E].
Defined.

(** ** Persistence, field by field *)

Lemma PlayerState_eq (s t : PlayerState) :
  currentSong s = currentSong t -> queue s = queue t ->
  originalQueue s = originalQueue t -> shuffledQueue s = shuffledQueue t ->
  isPlaying s = isPlaying t -> currentTime s = currentTime t ->
  duration s = duration t -> isLoading s = isLoading t ->
  shuffle s = shuffle t -> repeat s = repeat t -> volume s = volume t ->
  s = t.
Proof. destruct s, t; simpl; intros; subst; reflexivity. Qed.

Lemma initializeFromStorage_persist_state (w : World) :
  let s := state w in
  let s' := state (initializeFromStorage (persist w)) in
  currentSong s' = currentSong s /\
  queue s' = (if shuffle s && (0 <? len (shuffledQueue s))
              then shuffledQueue s else queue s) /\
  originalQueue s' = (if 0 <? len (originalQueue s) then originalQueue s else queue s) /\
  shuffledQueue s' = shuffledQueue s /\
  isPlaying s' = isPlaying s /\ currentTime s' = currentTime s /\
  duration s' = duration s /\ isLoading s' = isLoading s /\
  shuffle s' = shuffle s /\ repeat s' = repeat s /\ volume s' = volume s.
Proof.
  unfold initializeFromStorage, persist, store_call, set. simpl.
  rewrite loadPlayerState_savePlayerState. simpl.
  repeat match goal with |- _ /\ _ => split end; try reflexivity.
  destruct (shuffledQueue (state w)); reflexivity.
Qed.

(** X17: saving the state and loading it back gives the very same state,
    field for field, exactly when the visible queue mirrors the shuffled
    queue under shuffle and an empty original queue comes with an empty
    visible queue. *)
Theorem save_load_restores_state (w : World) :
  state (initializeFromStorage (persist w)) = state w <->
  shuffle_mirrored (state w) /\
  (originalQueue (state w) = [] -> queue (state w) = []).
Proof.
  destruct (initializeFromStorage_persist_state w)
    as (Hc & Hq & Ho & Hs & Hp & Ht & Hd & Hl & Hsh & Hr & Hv).
  split.
  - intros Heq. rewrite Heq in Hq, Ho. split.
    + intros Hon Hne. rewrite Hon in Hq.
      destruct (shuffledQueue (state w)); [contradiction|exact Hq].
    + intros He. rewrite He in Ho. simpl in Ho. congruence.
  - intros [Hm He]. apply PlayerState_eq; try assumption.
    + rewrite Hq. destruct (shuffle (state w)) eqn:Hon; [|reflexivity].
      destruct (shuffledQueue (state w)) eqn:Hsq; [reflexivity|].
      simpl. symmetry. rewrite <- Hsq. apply Hm; [exact Hon|]. rewrite Hsq. discriminate.
    + rewrite Ho. destruct (originalQueue (state w)); [|reflexivity].
      simpl. apply He. reflexivity.
Qed.

Lemma clearQueue_is_persist (w : World) :
  exists w0 : World, clearQueue w = persist w0 /\ state w0 = state (clearQueue w).
Proof. eexists. split; reflexivity. Qed.

(** X18: an emptied queue survives a restart: [initializeFromStorage]
    right after [clearQueue] finds the world as [clearQueue] left it. *)
Theorem clearQueue_survives_restart (w : World) :
  initializeFromStorage (clearQueue w) = clearQueue w.
Proof.
  destruct (clearQueue_is_persist w) as (w0 & Hw0 & Hs0).
  assert (Hstate : state (initializeFromStorage (clearQueue w)) = state (clearQueue w)).
  { rewrite Hw0 at 1.
    destruct (initializeFromStorage_persist_state w0)
      as (Hc & Hq & Ho & Hs & Hp & Ht & Hd & Hl & Hsh & Hr & Hv).
    rewrite Hs0 in *.
    apply PlayerState_eq; try assumption.
    - rewrite Hq. cbn -[savePlayerState]. destruct (shuffle (state w)); reflexivity. }
  transitivity (clearQueue w <| state := state (initializeFromStorage (clearQueue w)) |>);
    [reflexivity|].
  rewrite Hstate. destruct (clearQueue w); reflexivity.
Qed.

(** X19: after [clearStorage] nothing of a saved session is left: the
    loader answers the defaults, and [initializeFromStorage] resets every
    persisted field, whatever had been saved before. *)
Theorem clearStorage_resets (w : World) :
  loadPlayerState (clearStorage (storage w))
    = Persisted.mk None (Some []) (Some []) None (Some false) (Some off) (Some 1%Q) /\
  state (initializeFromStorage (store_call clearStorage w)) = reset_persisted (state w) /\
  state (initializeFromStorage (store_call clearStorage (persist w)))
    = reset_persisted (state w).
Proof.
  assert (Hload : forall m, loadPlayerState (clearStorage m)
    = Persisted.mk None (Some []) (Some []) None (Some false) (Some off) (Some 1%Q)).
  { intros m. unfold loadPlayerState, loadQueue, loadOriginalQueue, loadShuffledQueue,
      load_songs, getString, getBoolean, getNumber, clearStorage, storage_delete.
    cbn [slots]. simplify_map_eq. reflexivity. }
  split; [apply Hload|].
  unfold initializeFromStorage, store_call, set. cbn -[loadPlayerState clearStorage savePlayerState].
  rewrite !Hload. split; reflexivity.
Qed.

(** Each of the three queue slots gives back the list that was
    saved to it, and saving to one slot leaves the other two as they
    read before. *)
Theorem queue_slots_round_trip (q : list Song) (m : MMKV) :
  (loadQueue (saveQueue q m) = q /\
   loadOriginalQueue (saveQueue q m) = loadOriginalQueue m /\
   loadShuffledQueue (saveQueue q m) = loadShuffledQueue m) /\
  (loadOriginalQueue (saveOriginalQueue q m) = q /\
   loadQueue (saveOriginalQueue q m) = loadQueue m /\
   loadShuffledQueue (saveOriginalQueue q m) = loadShuffledQueue m) /\
  (loadShuffledQueue (saveShuffledQueue q m) = q /\
   loadQueue (saveShuffledQueue q m) = loadQueue m /\
   loadOriginalQueue (saveShuffledQueue q m) = loadOriginalQueue m).
Proof.
  unfold loadQueue, loadOriginalQueue, loadShuffledQueue, saveQueue,
    saveOriginalQueue, saveShuffledQueue, load_songs, save_songs, getString,
    storage_set.
  cbn [slots].
  repeat match goal with |- _ /\ _ => split end; simplify_map_eq; reflexivity.
Qed.

Lemma initializeFromStorage_idempotent (w : World) :
  initializeFromStorage (initializeFromStorage w) = initializeFromStorage w.
Proof.
  unfold initializeFromStorage, set. cbn [storage set_field set_state state].
  generalize (loadPlayerState (storage w)). intros loaded.
  destruct w as [s h m d]. cbn [set_field set_state state playHistory storage draws].
  f_equal.
Qed.

(** X20: [initializeFromStorage] only reads: the storage and its journal
    stay as they are, as do the playback fields and the history; a
    second call changes nothing more; and the state it leaves has the
    visible queue equal to the shuffled queue under shuffle. *)
Theorem initializeFromStorage_reads_only (w : World) :
  let w1 := initializeFromStorage w in
  storage w1 = storage w /\
  playHistory w1 = playHistory w /\
  draws w1 = draws w /\
  isPlaying (state w1) = isPlaying (state w) /\
  currentTime (state w1) = currentTime (state w) /\
  duration (state w1) = duration (state w) /\
  isLoading (state w1) = isLoading (state w) /\
  initializeFromStorage w1 = w1 /\
  shuffle_mirrored (state w1).
Proof.
  cbv zeta.
  repeat match goal with |- _ /\ _ => split end;
    [reflexivity | reflexivity | reflexivity | reflexivity | reflexivity
    | reflexivity | reflexivity
    | apply initializeFromStorage_idempotent
    | apply initializeFromStorage_mirrored].
Qed.



(** ** Volume and duration stay in range *)

(** X22: [setVolume] leaves a volume in [[0, 1]] (the given one when it
    lies inside, 0 below, 1 above), and [setDuration] a duration that is
    not negative, whatever they are given. *)
Theorem setters_keep_ranges (v d : Q) (w : World) :
  ((0 <= volume (state (setVolume v w)))%Q /\
   (volume (state (setVolume v w)) <= 1)%Q /\
   ((0 <= v)%Q -> (v <= 1)%Q -> (volume (state (setVolume v w)) == v)%Q) /\
   ((v < 0)%Q -> volume (state (setVolume v w)) = 0%Q) /\
   ((1 < v)%Q -> volume (state (setVolume v w)) = 1%Q)) /\
  ((0 <= duration (state (setDuration d w)))%Q /\
   ((0 <= d)%Q -> duration (state (setDuration d w)) = d) /\
   ((d < 0)%Q -> duration (state (setDuration d w)) = 0%Q)).
Proof.
  cbn -[savePlayerState]. unfold Math_max, Math_min. split.
  - destruct (Qle_bool 1 v) eqn:E1.
    + apply Qle_bool_iff in E1. change (Qle_bool 0 1) with true. cbn iota.
      repeat split; try reflexivity; try discriminate; intros;
        first [lra | exfalso; lra].
    + assert (~ (1 <= v)%Q) by (rewrite <- Qle_bool_iff; congruence).
      destruct (Qle_bool 0 v) eqn:E2.
      * apply Qle_bool_iff in E2.
        repeat split; try reflexivity; try assumption; intros;
          first [lra | exfalso; lra].
      * assert (~ (0 <= v)%Q) by (rewrite <- Qle_bool_iff; congruence).
        repeat split; try reflexivity; try discriminate; intros;
          first [lra | exfalso; lra].
  - destruct (Qle_bool 0 d) eqn:E.
    + apply Qle_bool_iff in E.
      repeat split; try assumption; try reflexivity; intros; exfalso; lra.
    + assert (~ (0 <= d)%Q) by (rewrite <- Qle_bool_iff; congruence).
      repeat split; try reflexivity; try discriminate; intros; exfalso; lra.
Qed.

(** ** The media link of a song *)

Lemma find_none_existsb {A : Type} (p : A -> bool) (l : list A) :
  List.find p l = None -> existsb p l = false.
Proof.
  induction l as [|x l IH]; simpl; [reflexivity|].
  destruct (p x); [discriminate|exact IH].
Qed.

Lemma find_some_existsb {A : Type} (p : A -> bool) (l : list A) (x : A) :
  List.find p l = Some x -> existsb p l = true /\ p x = true /\ In x l.
Proof.
  induction l as [|y l IH]; simpl; [discriminate|].
  destruct (p y) eqn:E.
  - intros [= <-]. repeat split; [exact E|left; reflexivity].
  - intros H. destruct (IH H) as (H1 & H2 & H3). repeat split; auto.
Qed.

(** X23: which songs can be played. A song with download links is
    playable exactly when its first [160kbps] link is non-empty or, if it
    has no such entry, when any of its links is non-empty; the fallback
    fields are not consulted for it. A song without download links is
    playable exactly when one of the three fallback fields is non-empty.
    A link that is returned is one of the song's links. *)
Theorem getDownloadUrl_playable (song : Media.t) :
  (forall (first : Media.DownloadUrl) (others : list Media.DownloadUrl),
     Media.downloadUrl song = Some (first :: others) ->
     playable (getDownloadUrl song) =
       match List.find (fun u => String.eqb (Media.quality u) "160kbps")
               (first :: others) with
       | Some preferred => nonempty (Media.link preferred)
       | None => existsb (fun u => nonempty (Media.link u)) (first :: others)
       end) /\
  (Media.downloadUrl song = None \/ Media.downloadUrl song = Some [] ->
   playable (getDownloadUrl song) =
     playable (Media.encryptedMediaUrl song)
     || playable (Media.mediaPreviewUrl song)
     || nonempty (Media.url song)) /\
  (forall u : string,
     getDownloadUrl song = Some u ->
     In u (Media.link <$> default [] (Media.downloadUrl song)) \/
     Media.encryptedMediaUrl song = Some u \/
     Media.mediaPreviewUrl song = Some u \/
     Media.url song = u).
Proof.
  unfold getDownloadUrl. split; [|split].
  - intros first others ->.
    destruct (List.find (fun u => String.eqb (Media.quality u) "160kbps")
                (first :: others)) as [p|]; [reflexivity|].
    destruct (List.find (fun u => nonempty (Media.link u)) (first :: others))
      as [f|] eqn:E.
    + destruct (find_some_existsb _ _ _ E) as (-> & Hf & _). exact Hf.
    + pose proof (find_none_existsb _ _ E) as Hnone. rewrite Hnone.
      simpl in Hnone. apply orb_false_iff in Hnone as [Hfirst _].
      simpl. rewrite Hfirst. reflexivity.
  - intros [-> | ->]; unfold or_else, playable;
      destruct (Media.encryptedMediaUrl song) as [e|];
      destruct (Media.mediaPreviewUrl song) as [p|];
      repeat match goal with |- context [nonempty ?s] => destruct (nonempty s) eqn:? end;
      simpl; congruence.
  - intros u.
    assert (Hfallback :
      or_else (Media.encryptedMediaUrl song)
        (or_else (Media.mediaPreviewUrl song) (or_else (Some (Media.url song)) None))
        = Some u ->
      Media.encryptedMediaUrl song = Some u \/ Media.mediaPreviewUrl song = Some u \/
      Media.url song = u).
    { unfold or_else.
      destruct (Media.encryptedMediaUrl song) as [e|];
        destruct (Media.mediaPreviewUrl song) as [p|];
        repeat match goal with |- context [nonempty ?s] => destruct (nonempty s) end;
        intros [= <-]; auto; discriminate. }
    destruct (Media.downloadUrl song) as [[|first others]|];
      [intros H; right; auto | | intros H; right; auto].
    cbn [default].
    destruct (List.find (fun u => String.eqb (Media.quality u) "160kbps")
                (first :: others)) as [p|] eqn:E1.
    { intros [= <-]. left. destruct (find_some_existsb _ _ _ E1) as (_ & _ & Hin).
      apply in_map. exact Hin. }
    destruct (List.find (fun u => nonempty (Media.link u)) (first :: others))
      as [f|] eqn:E2.
    { intros [= <-]. left. destruct (find_some_existsb _ _ _ E2) as (_ & _ & Hin).
      apply in_map. exact Hin. }
    cbn. destruct (nonempty (Media.link first)); [|discriminate].
    intros [= <-]. left. left. reflexivity.
Qed.

(** ** The repeat button *)


(** ** Playback status updates *)

Lemma getEffectiveQueue_ext (s t : PlayerState) :
  queue s = queue t -> originalQueue s = originalQueue t ->
  shuffledQueue s = shuffledQueue t -> shuffle s = shuffle t ->
  getEffectiveQueue s = getEffectiveQueue t.
Proof. unfold getEffectiveQueue. intros -> -> -> ->. reflexivity. Qed.

Lemma status_updates_frame (status : Status.t) (w : World) :
  let w' := status_updates status w in
  currentSong (state w') = currentSong (state w) /\
  queue (state w') = queue (state w) /\
  originalQueue (state w') = originalQueue (state w) /\
  shuffledQueue (state w') = shuffledQueue (state w) /\
  shuffle (state w') = shuffle (state w) /\
  repeat (state w') = repeat (state w) /\
  volume (state w') = volume (state w) /\
  playHistory w' = playHistory w /\
  draws w' = draws w.
Proof.
  unfold status_updates. cbv zeta.
  destruct (Status.positionMillis status) as [p|];
    destruct (Status.durationMillis status) as [d|];
    try destruct (Qlt_le_dec 0 (d / 1000));
    destruct (Status.isPlaying status) as [b|];
    cbn -[savePlayerState]; repeat split.
Qed.

(** X25: a playback status never touches the queues or the settings:
    whatever the device reports, the three queues, shuffle, repeat and
    volume are afterwards what they were. *)
Theorem onPlaybackStatusUpdate_frame (status : Status.t) (w w' : World) :
  onPlaybackStatusUpdate status w = Ok w' ->
  queue (state w') = queue (state w) /\
  originalQueue (state w') = originalQueue (state w) /\
  shuffledQueue (state w') = shuffledQueue (state w) /\
  shuffle (state w') = shuffle (state w) /\
  repeat (state w') = repeat (state w) /\
  volume (state w') = volume (state w).
Proof.
  unfold onPlaybackStatusUpdate.
  destruct (Status.isLoaded status); cbn [negb].
  2:{ destruct (Status.error status) as [e|]; [destruct (nonempty e)|];
        intros [= <-]; repeat split. }
  cbv zeta.
  destruct (status_updates_frame status w) as (_ & Hq & Ho & Hs & Hsh & Hr & Hv & _).
  set (w1 := status_updates status w) in *. clearbody w1.
  destruct (finished status); [|intros [= <-]; repeat split; assumption].
  unfold handlePlaybackCompletion.
  destruct (repeat (state w1)) eqn:Hrep.
  - destruct (nextSong w1) as [w2| |] eqn:E; try discriminate.
    + intros [= <-].
      destruct (navigation_keeps_queues w1 w2 (or_introl E))
        as (Hq' & Ho' & Hs' & Hsh' & Hr' & Hv').
      repeat split; congruence.
    + intros [= <-]. cbn -[savePlayerState]. repeat split; congruence.
  - intros [= <-]. repeat split; congruence.
  - destruct (nextSong w1) as [w2| |] eqn:E; try discriminate.
    + intros [= <-].
      destruct (navigation_keeps_queues w1 w2 (or_introl E))
        as (Hq' & Ho' & Hs' & Hsh' & Hr' & Hv').
      repeat split; congruence.
    + intros [= <-]. cbn -[savePlayerState]. repeat split; congruence.
Qed.

Lemma onPlaybackStatusUpdate_frame_witness :
  match onPlaybackStatusUpdate status_finished at_last_song with
  | Ok w' =>
      queue (state w') = queue (state at_last_song) /\
      originalQueue (state w') = originalQueue (state at_last_song) /\
      shuffledQueue (state w') = shuffledQueue (state at_last_song) /\
      shuffle (state w') = shuffle (state at_last_song) /\
      repeat (state w') = repeat (state at_last_song) /\
      volume (state w') = volume (state at_last_song)
  | _ => False
  end.
Proof.
  destruct (onPlaybackStatusUpdate status_finished at_last_song) as [w'| |] eqn:E;
    [|vm_compute in E; discriminate E|vm_compute in E; discriminate E].
  apply (onPlaybackStatusUpdate_frame status_finished at_last_song w' E).
Defined.

(** X26: when the device reports that the song finished while repeat is
    [off] and shuffle is off, and the current song is the last of the
    effective queue, playback stops and the song stays current. *)
Theorem playback_finished_at_end (status : Status.t) (w : World) (current : Song) :
  Status.isLoaded status = true ->
  finished status = true ->
  currentSong (state w) = Some current ->
  repeat (state w) = off -> shuffle (state w) = false ->
  queue (state w) <> [] ->
  getEffectiveQueue (state w) <> [] ->
  findIndex (fun x => Song.same_id x current) (getEffectiveQueue (state w))
    = len (getEffectiveQueue (state w)) - 1 ->
  exists w' : World,
    onPlaybackStatusUpdate status w = Ok w' /\
    currentSong (state w') = Some current /\
    isPlaying (state w') = false.
Proof.
  intros Hloaded Hfin Hcur Hoff Hnosh Hqne Hene Hlast.
  unfold onPlaybackStatusUpdate.
  rewrite Hloaded, Hfin. cbn [negb]. cbv zeta.
  destruct (status_updates_frame status w)
    as (Hc & Hq & Ho & Hs & Hsh & Hr & _ & _ & _).
  set (w1 := status_updates status w) in *. clearbody w1.
  pose proof (getEffectiveQueue_ext _ _ Hq Ho Hs Hsh) as Heff.
  unfold handlePlaybackCompletion. rewrite Hr, Hoff.
  rewrite (nextSong_at_end w1 current); try congruence.
  eexists. split; [reflexivity|]. split; [|reflexivity].
  cbn -[savePlayerState]. congruence.
Qed.

Lemma playback_finished_at_end_witness :
  exists w' : World,
    onPlaybackStatusUpdate status_finished at_last_song_off = Ok w' /\
    currentSong (state w') = Some song_C /\
    isPlaying (state w') = false.
Proof.
  apply (playback_finished_at_end status_finished at_last_song_off song_C);
    reflexivity || discriminate.
Defined.

(** X27: a status update clamps the position against the duration the
    store held before the update, and only then takes the duration the
    device reports; the same status a second time sets the position the
    device reported. *)
Theorem status_position_lags (status : Status.t) (w : World) (p d : Q) :
  Status.isLoaded status = true ->
  finished status = false ->
  Status.positionMillis status = Some p ->
  Status.durationMillis status = Some d ->
  (0 <= p)%Q -> (p <= d)%Q -> (0 < d)%Q ->
  exists w1 w2 : World,
    onPlaybackStatusUpdate status w = Ok w1 /\
    onPlaybackStatusUpdate status w1 = Ok w2 /\
    currentTime (state w1) = Math_max 0 (Math_min (p / 1000) (duration (state w))) /\
    duration (state w1) = Math_max 0 (d / 1000) /\
    currentTime (state w2) = (p / 1000)%Q /\
    (0 <= currentTime (state w2))%Q /\
    (currentTime (state w2) <= duration (state w2))%Q.
Proof.
  intros Hloaded Hfin Hp Hd H0 Hpd Hdpos.
  assert (Hd1 : (0 < d / 1000)%Q) by (apply Qlt_shift_div_l; [reflexivity|lra]).
  assert (Hp1 : (0 <= p / 1000)%Q) by (apply Qle_shift_div_l; [reflexivity|lra]).
  assert (Hpd1 : (p / 1000 <= d / 1000)%Q).
  { unfold Qdiv. apply Qmult_le_compat_r; [exact Hpd|discriminate]. }
  assert (Hmax : Math_max 0 (d / 1000) = (d / 1000)%Q).
  { unfold Math_max. replace (Qle_bool 0 (d / 1000)) with true; [reflexivity|].
    symmetry. apply Qle_bool_iff. lra. }
  assert (Hclamp : Math_max 0 (Math_min (p / 1000) (d / 1000)) = (p / 1000)%Q).
  { unfold Math_max, Math_min.
    replace (Qle_bool (p / 1000) (d / 1000)) with true
      by (symmetry; apply Qle_bool_iff; exact Hpd1).
    replace (Qle_bool 0 (p / 1000)) with true
      by (symmetry; apply Qle_bool_iff; exact Hp1).
    reflexivity. }
  unfold onPlaybackStatusUpdate. rewrite Hloaded, Hfin. cbn [negb]. cbv zeta.
  exists (status_updates status w), (status_updates status (status_updates status w)).
  split; [reflexivity|]. split; [reflexivity|].
  unfold status_updates. rewrite Hp, Hd. cbv zeta.
  destruct (Qlt_le_dec 0 (d / 1000)) as [_|Hle]; [|lra].
  destruct (Status.isPlaying status) as [b|]; cbn -[savePlayerState Math_max Math_min];
    rewrite ?Hmax, ?Hclamp; repeat split; try reflexivity; try assumption.
Qed.

Lemma status_position_lags_witness :
  exists w1 w2 : World,
    onPlaybackStatusUpdate status_playing (world_of default_state) = Ok w1 /\
    onPlaybackStatusUpdate status_playing w1 = Ok w2 /\
    currentTime (state w1)
      = Math_max 0 (Math_min (90000 / 1000) (duration (state (world_of default_state)))) /\
    duration (state w1) = Math_max 0 (100000 / 1000) /\
    currentTime (state w2) = (90000 / 1000)%Q /\
    (0 <= currentTime (state w2))%Q /\
    (currentTime (state w2) <= duration (state w2))%Q.
Proof.
  apply (status_position_lags status_playing (world_of default_state) 90000%Q 100000%Q);
    reflexivity || discriminate.
Defined.

(** ** Formatting a duration *)











(** ** The play history and the shuffled successor *)

(** X29: no action of the store lets the play history grow beyond 51
    entries. *)
Theorem history_bound_kept
    (shuffleArray : list Song -> list Q -> result (list Song * list Q))
    (a : action) (w w' : World) :
  (length (playHistory w) <= 51)%nat ->
  perform shuffleArray a w = Ok w' ->
  (length (playHistory w') <= 51)%nat.
Proof.
  intros Hb. destruct a; cbn [perform];
    try (intros [= <-]; cbn -[savePlayerState loadPlayerState]; exact Hb).
  - intros [= <-]. apply playSong_history_bound.
  - intros [= <-]. unfold resumeSong.
    destruct (currentSong (state w)); [destruct (0 <? len (queue (state w)))|];
      cbn -[savePlayerState]; exact Hb.
  - intros H. exact (nextSong_history_bound w w' H Hb).
  - intros H. exact (previousSong_history_bound w w' H Hb).
  - unfold addToQueue, mbind, result_bind. intros H.
    repeat case_match; simplify_eq; cbn -[savePlayerState]; exact Hb.
  - unfold removeFromQueue, mbind, result_bind. intros H.
    repeat case_match; simplify_eq; cbn -[savePlayerState]; exact Hb.
  - unfold reorderQueue, mbind, result_bind. intros H.
    repeat case_match; simplify_eq; cbn -[savePlayerState]; exact Hb.
  - unfold toggleShuffle, mbind, result_bind. intros H.
    repeat case_match; simplify_eq; cbn -[savePlayerState]; exact Hb.
Qed.

Lemma history_bound_kept_witness :
  match perform keep_order ANextSong with_draws with
  | Ok w' => (length (playHistory w') <= 51)%nat
  | _ => False
  end.
Proof.
  destruct (perform keep_order ANextSong with_draws) as [w'| |] eqn:E;
    [|vm_compute in E; discriminate E|vm_compute in E; discriminate E].
  apply (history_bound_kept keep_order ANextSong with_draws w'); [cbn; lia|exact E].
Defined.

(** X30: under shuffle, with repeat not [one] and the current song not
    the last of an effective queue without repeated ids, [nextSong]
    switches to another song of the effective queue as soon as one draw
    of the supply lands on another index. *)
Theorem nextSong_shuffle_switches (w : World) (current : Song) :
  currentSong (state w) = Some current ->
  queue (state w) <> [] ->
  shuffle (state w) = true ->
  repeat (state w) <> one ->
  NoDup (ids (getEffectiveQueue (state w))) ->
  0 <= findIndex (fun x => Song.same_id x current) (getEffectiveQueue (state w))
    < len (getEffectiveQueue (state w)) - 1 ->
  Forall unit_draw (draws w) ->
  Exists (fun r => randomIndex r (length (getEffectiveQueue (state w)))
                   <> findIndex (fun x => Song.same_id x current)
                        (getEffectiveQueue (state w))) (draws w) ->
  exists (w' : World) (next : Song),
    nextSong w = Ok w' /\
    currentSong (state w') = Some next /\
    In next (getEffectiveQueue (state w)) /\
    Song.id next <> Song.id current /\
    isPlaying (state w') = true.
Proof.
  intros Hcur Hq Hsh Hrep Hnd Hidx Hunit Hex.
  set (eff := getEffectiveQueue (state w)) in *.
  set (ci := findIndex (fun x => Song.same_id x current) eff) in *.
  destruct (getNextSongIndex_shuffle_returns ci eff (repeat (state w)) (draws w))
    as (i & rest & Hnext & Hne); [lia|exact Hrep|exact Hidx|exact Hex|].
  destruct (getNextSongIndex_range ci eff true (repeat (state w)) (draws w) rest i)
    as [Hi _]; [lia|exact Hunit|exact Hnext|].
  destruct (at_index_in_range eff i Hi) as [next Hat].
  destruct (findIndex_found (fun x => Song.same_id x current) eff)
    as (x & Hx & Hsame & _); [fold ci; lia|]. fold ci in Hx.
  assert (Hdiff : Song.same_id current next = false).
  { destruct (Song.same_id current next) eqn:Hs; [|reflexivity]. exfalso.
    rewrite at_index_lookup in Hat, Hx by lia.
    assert (Hsx : Song.same_id next x = true).
    { unfold Song.same_id in *. apply String.eqb_eq in Hs, Hsame.
      apply String.eqb_eq. congruence. }
    pose proof (NoDup_ids_same_id eff _ _ x next Hnd Hx Hat Hsx) as Heq. lia. }
  exists (persist (set (switch_to next)
            (w <| draws := rest |>
               <| playHistory := trim_history (playHistory w) ++ [current] |>))), next.
  split.
  - unfold nextSong. cbv zeta. fold eff. rewrite Hcur. fold ci.
    replace (len (queue (state w)) =? 0) with false
      by (destruct (queue (state w)); [contradiction|reflexivity]).
    replace (ci =? -1) with false by (symmetry; apply Z.eqb_neq; lia).
    rewrite Hsh, Hnext. unfold mbind, result_bind.
    replace (i <? len eff) with true by (symmetry; apply Z.ltb_lt; lia).
    rewrite Hat, Hdiff. reflexivity.
  - split; [reflexivity|]. split.
    + rewrite at_index_lookup in Hat by lia.
      apply list_elem_of_In. eapply list_elem_of_lookup_2. exact Hat.
    + split; [|reflexivity]. intros Hid.
      unfold Song.same_id in Hdiff. apply String.eqb_neq in Hdiff. congruence.
Qed.

Lemma nextSong_shuffle_switches_witness :
  exists (w' : World) (next : Song),
    nextSong with_draws = Ok w' /\
    currentSong (state w') = Some next /\
    In next (getEffectiveQueue (state with_draws)) /\
    Song.id next <> Song.id song_A /\
    isPlaying (state w') = true.
Proof.
  apply (nextSong_shuffle_switches with_draws song_A).
  - reflexivity.
  - discriminate.
  - reflexivity.
  - discriminate.
  - apply (@bool_decide_unpack _ (NoDup_dec _)). vm_compute. reflexivity.
  - vm_compute. split; [discriminate|reflexivity].
  - repeat constructor; vm_compute; discriminate.
  - apply Exists_cons_tl, Exists_cons_hd. vm_compute. discriminate.
Defined.
